(** * HTTP design expressions of goa: root and file server

    A shallow embedding of [http/design/root.go] and
    [http/design/file_server.go].  Go strings are byte sequences and are
    modelled by [string]; slices by [list]; a pointer by an [option] of an
    address into a heap, [None] being [nil]; a run-time panic by the
    [Panics] outcome.  The functions of the Go standard library that the
    sources call ([strings.Split], [path.Join], [regexp] matching,
    [sort.SliceStable]) are modelled after the library. *)

From Stdlib Require Import Ascii String Arith Lia.
From Equations Require Import Equations.
From stdpp Require Import base tactics option list gmap strings sorting.

Local Open Scope string_scope.
Local Open Scope list_scope.
Local Open Scope nat_scope.

(** ** Outcomes of Go calls *)

(** A Go call either returns its results or panics (nil dereference, index
    out of range). *)
Inductive outcome (A : Type) : Type :=
| Returns (a : A)
| Panics.
Arguments Returns {A} a.
Arguments Panics {A}.

Definition obind {A B} (m : outcome A) (f : A → outcome B) : outcome B :=
  match m with
  | Returns a => f a
  | Panics => Panics
  end.

(** ** The part of package [strings] the sources call *)

Module GoStrings.

(** [strings.Split(s, sep)] for a one-byte separator: the slices of [s]
    between the occurrences of [sep]; an input without [sep] (the empty
    string included) gives the one-element slice holding [s]. *)
Fixpoint Split (s : string) (sep : ascii) : list string :=
  match s with
  | EmptyString => [EmptyString]
  | String c s' =>
      if Ascii.eqb c sep then EmptyString :: Split s' sep
      else match Split s' sep with
           | hd :: tl => String c hd :: tl
           | [] => [String c EmptyString]
           end
  end.

(** [strings.HasPrefix(s, prefix)]. *)
Definition HasPrefix (s prefix : string) : bool := String.prefix prefix s.

(** The bytes of [s] before the first [sep] (all of [s] without one). *)
Fixpoint before (sep : ascii) (s : string) : string :=
  match s with
  | EmptyString => EmptyString
  | String c s' => if Ascii.eqb c sep then EmptyString else String c (before sep s')
  end.

(** [occurs sep s]: the byte [sep] appears in [s]. *)
Fixpoint occurs (sep : ascii) (s : string) : bool :=
  match s with
  | EmptyString => false
  | String c s' => Ascii.eqb c sep || occurs sep s'
  end.

(** The bytes of [s] after the first [sep] (none without one). *)
Fixpoint after (sep : ascii) (s : string) : string :=
  match s with
  | EmptyString => EmptyString
  | String c s' => if Ascii.eqb c sep then s' else after sep s'
  end.

End GoStrings.

(** ** NameMap *)

(** [NameMap]: [elems := strings.Split(encoded, ":")], the attribute name
    is [elems[0]] and the element name is [elems[1]] when [len(elems) > 1],
    the attribute name otherwise.  Indexing an empty slice would panic. *)
Definition NameMap (encoded : string) : outcome (string * string) :=
  let elems := GoStrings.Split encoded ":" in
  match elems !! 0%nat with
  | None => Panics
  | Some attName =>
      let name := attName in
      let name :=
        if decide (1 < length elems)%nat
        then default name (elems !! 1%nat)
        else name in
      Returns (attName, name)
  end.

(** ** The wildcard pattern *)

Module Regexp.

(** The fragment of the regular-expression syntax that [WildcardRegex]
    uses: literal bytes, an optional literal, a greedy repetition of a
    character class, one capturing group, concatenation. *)
Inductive regex : Type :=
| Lit (c : ascii)
| Opt (r : regex)
| Plus (cls : ascii → bool)
| Group (r : regex)
| Cat (r1 r2 : regex).

(** Greedy repetition, one or more bytes of [cls]: the longest run is
    tried first and shorter ones after it, as a backtracking matcher
    does.  [k] is given the rest of the input. *)
Fixpoint plus_loop {R} (cls : ascii → bool) (s : string)
    (k : string → option R) : option R :=
  match s with
  | EmptyString => None
  | String c s' =>
      if cls c then
        match plus_loop cls s' k with
        | Some x => Some x
        | None => k s'
        end
      else None
  end.

(** The prefix of [s] that a match consumed, [rest] being what is left. *)
Definition consumed (s rest : string) : string :=
  substring 0 (String.length s - String.length rest) s.

(** Leftmost-first matching of [r] at the start of [s] with continuation
    [k]; [cap] is the text of the capturing group so far. *)
Fixpoint rmatch {R} (r : regex) (s : string) (cap : option string)
    (k : option string → string → option R) : option R :=
  match r with
  | Lit c =>
      match s with
      | String c' s' => if Ascii.eqb c' c then k cap s' else None
      | EmptyString => None
      end
  | Opt r1 =>
      match rmatch r1 s cap k with
      | Some x => Some x
      | None => k cap s
      end
  | Plus cls => plus_loop cls s (k cap)
  | Group r1 => rmatch r1 s cap (λ _ rest, k (Some (consumed s rest)) rest)
  | Cat r1 r2 => rmatch r1 s cap (λ cap' rest, rmatch r2 rest cap' k)
  end.

(** One match: the whole matched text, the text of group 1 (empty when
    the group took no part) and the input after the match. *)
Record submatch : Type := Submatch {
  whole : string;
  group1 : string;
  after : string
}.

(** The match of [r] that starts at the first byte of [s], if any. *)
Definition match_here (r : regex) (s : string) : option submatch :=
  rmatch r s None
    (λ cap rest, Some (Submatch (consumed s rest) (default EmptyString cap) rest)).

(** [FindAllStringSubmatch(s, -1)]: the successive non-overlapping
    leftmost matches.  After a match the search resumes where it ended
    (one byte further when the match is empty); without a match at the
    current byte it moves one byte on.  Each round consumes at least one
    byte, so [fuel] above the length of [s] is never used up. *)
Fixpoint find_all (fuel : nat) (r : regex) (s : string) : list submatch :=
  match fuel with
  | O => []
  | S fuel' =>
      match match_here r s with
      | Some m =>
          if decide (String.length (after m) < String.length s)%nat
          then m :: find_all fuel' r (after m)
          else match s with
               | EmptyString => [m]
               | String _ s' => m :: find_all fuel' r s'
               end
      | None =>
          match s with
          | EmptyString => []
          | String _ s' => find_all fuel' r s'
          end
      end
  end.

Definition FindAllStringSubmatch (r : regex) (s : string) : list submatch :=
  find_all (S (String.length s)) r s.

(** [MatchString(s)]: some match starts at some byte of [s]. *)
Fixpoint MatchString (r : regex) (s : string) : bool :=
  match match_here r s with
  | Some _ => true
  | None =>
      match s with
      | EmptyString => false
      | String _ s' => MatchString r s'
      end
  end.

End Regexp.

(** The class [[a-zA-Z0-9_]]. *)
Definition word_byte (c : ascii) : bool :=
  let n := nat_of_ascii c in
  ((97 <=? n) && (n <=? 122) || (65 <=? n) && (n <=? 90)
   || (48 <=? n) && (n <=? 57) || (n =? 95))%nat.

(** [WildcardRegex = regexp.MustCompile(`/{\*?([a-zA-Z0-9_]+)}`)]. *)
Definition WildcardRegex : Regexp.regex :=
  Regexp.Cat (Regexp.Lit "/")
    (Regexp.Cat (Regexp.Lit "{")
       (Regexp.Cat (Regexp.Opt (Regexp.Lit "*"))
          (Regexp.Cat (Regexp.Group (Regexp.Plus word_byte))
             (Regexp.Lit "}")))).

(** [make([]T, n)] followed by [for i, x := range xs { out[i] = f(x) }]:
    the slots are written by index, in order. *)
Definition fill_indexed {A B} (zero : B) (f : A → B) (xs : list A) : list B :=
  (foldl (λ '(i, out) x, (S i, <[i := f x]> out))
         (0%nat, replicate (length xs) zero) xs).2.

(** [ExtractWildcards]: group 1 of every match of [WildcardRegex]. *)
Definition ExtractWildcards (path : string) : list string :=
  let matches := Regexp.FindAllStringSubmatch WildcardRegex path in
  fill_indexed EmptyString Regexp.group1 matches.

(** ** The part of package [path] the sources call *)

Module GoPath.

Definition slash : ascii := "/"%char.
Definition dot : ascii := "."%char.

(** The input is at its end or at a separator. *)
Definition sep_or_end (s : string) : bool :=
  match s with
  | EmptyString => true
  | String c _ => Ascii.eqb c slash
  end.

(** The input starts with a [..] path element. *)
Definition dotdot_elem (s : string) : bool :=
  match s with
  | String c0 (String c1 s2) => Ascii.eqb c0 dot && Ascii.eqb c1 dot && sep_or_end s2
  | _ => false
  end.

(** [for ; r < n && path[r] != '/'; r++ { out.append(path[r]) }]: the
    bytes up to the next separator, and the input from there. *)
Fixpoint copy_elem (s : string) : list ascii * string :=
  match s with
  | EmptyString => ([], EmptyString)
  | String c s' =>
      if Ascii.eqb c slash then ([], s)
      else let '(e, rest) := copy_elem s' in (c :: e, rest)
  end.

(** [for out.w > dotdot && out.index(out.w) != '/' { out.w-- }], from
    write index [w]. *)
Fixpoint backtrack (out : list ascii) (dotdot w : nat) : nat :=
  match w with
  | O => O
  | S w' =>
      if bool_decide (dotdot < w)%nat && negb (bool_decide (out !! w = Some slash))
      then backtrack out dotdot w'
      else w
  end.

(** The loop of [Clean].  The output buffer (a [lazybuf] in Go) is the
    list [out] of the bytes written so far, its write index [out.w] is
    [length out].  [rest] is [path[r:]].  Every iteration consumes at
    least one byte of [rest]. *)
Fixpoint clean_loop (fuel : nat) (rooted : bool) (rest : string)
    (out : list ascii) (dotdot : nat) : list ascii :=
  match fuel with
  | O => out
  | S fuel' =>
      match rest with
      | EmptyString => out
      | String c r1 =>
          if Ascii.eqb c slash then
            (* empty path element *)
            clean_loop fuel' rooted r1 out dotdot
          else if Ascii.eqb c dot && sep_or_end r1 then
            (* . element *)
            clean_loop fuel' rooted r1 out dotdot
          else if dotdot_elem rest then
            (* .. element: remove to last / *)
            let r2 := match r1 with String _ r2 => r2 | EmptyString => EmptyString end in
            if decide (dotdot < length out)%nat then
              let w := backtrack out dotdot (length out - 1) in
              clean_loop fuel' rooted r2 (take w out) dotdot
            else if negb rooted then
              let out1 := if decide (0 < length out)%nat then out ++ [slash] else out in
              let out2 := out1 ++ [dot; dot] in
              clean_loop fuel' rooted r2 out2 (length out2)
            else clean_loop fuel' rooted r2 out dotdot
          else
            (* real path element: add slash if needed, copy element *)
            let out1 :=
              if rooted && negb (length out =? 1)%nat
                 || negb rooted && negb (length out =? 0)%nat
              then out ++ [slash] else out in
            let '(e, rest') := copy_elem rest in
            clean_loop fuel' rooted rest' (out1 ++ e) dotdot
      end
  end.

(** [path.Clean]. *)
Definition Clean (path : string) : string :=
  match path with
  | EmptyString => "."
  | String c p1 =>
      let rooted := Ascii.eqb c slash in
      let out :=
        if rooted then clean_loop (String.length path) true p1 [slash] 1
        else clean_loop (String.length path) false path [] 0 in
      match out with
      | [] => "."
      | _ => string_of_list_ascii out
      end
  end.

(** [path.Join]: the empty leading elements are skipped, the others
    joined with slashes and the result cleaned; all elements empty gives
    the empty string. *)
Definition Join (elem : list string) : string :=
  let size := foldl (λ n e, n + String.length e)%nat 0%nat elem in
  if (size =? 0)%nat then EmptyString
  else
    let buf :=
      foldl (λ buf e,
               if negb (String.length buf =? 0)%nat || negb (String.eqb e EmptyString)
               then String.append
                      (if negb (String.length buf =? 0)%nat
                       then String.append buf (String slash EmptyString) else buf)
                      e
               else buf)
            EmptyString elem in
    Clean buf.

End GoPath.

(** ** The part of package [sort] the sources call

    [sort.SliceStable] is the standard library's stable sort: insertion
    sort on blocks of 20 elements, then passes of in-place merging
    ([symMerge]) of neighbouring blocks.  It calls the comparator on
    positions of the slice as it is at that moment. *)

Module GoSort.
Section Stable.

Context {A : Type} (less : A → A → bool).

(** [data.Less(i, j)]: the comparator on the elements now at [i] and [j]. *)
Definition Less (data : list A) (i j : nat) : bool :=
  match data !! i, data !! j with
  | Some x, Some y => less x y
  | _, _ => false
  end.

(** [data.Swap(i, j)]. *)
Definition Swap (data : list A) (i j : nat) : list A :=
  match data !! i, data !! j with
  | Some x, Some y => <[j := x]> (<[i := y]> data)
  | _, _ => data
  end.

(** [for j := i; j > a && data.Less(j, j-1); j-- { data.Swap(j, j-1) }]. *)
Fixpoint insert_down (data : list A) (a j : nat) : list A :=
  match j with
  | O => data
  | S j' =>
      if bool_decide (a < j)%nat && Less data j j'
      then insert_down (Swap data j j') a j'
      else data
  end.

(** [insertionSort(data, a, b)]: [for i := a + 1; i < b; i++]. *)
Definition insertionSort (data : list A) (a b : nat) : list A :=
  foldl (λ d i, insert_down d a i) data (seq (a + 1) (b - (a + 1))).

(** [swapRange(data, a, b, n)]. *)
Definition swapRange (data : list A) (a b n : nat) : list A :=
  foldl (λ d i, Swap d (a + i) (b + i)) data (seq 0 n).

(** The loop of [rotate]; [rotate] is only called with [a < m < b], which
    keeps [i] and [j] positive. *)
Equations? rotate_loop (data : list A) (m i j : nat) : list A by wf (i + j) lt :=
  rotate_loop data m 0 j := data;
  rotate_loop data m i 0 := data;
  rotate_loop data m i j with decide (i = j) := {
    | left _ => swapRange data (m - i) m i
    | right _ with decide (j < i) := {
        | left _ => rotate_loop (swapRange data (m - i) m j) m (i - j) j
        | right _ => rotate_loop (swapRange data (m - i) (m + j - i) i) m i (j - i) } }.
Proof. all: lia. Qed.

Definition rotate (data : list A) (a m b : nat) : list A :=
  rotate_loop data m (m - a) (b - m).

(** The binary searches of [symMerge]:
    [for i < j { h := int(uint(i+j) >> 1); if go_right(h) { i = h + 1 } else { j = h } }]. *)
Equations? bsearch (go_right : nat → bool) (i j : nat) : nat by wf (j - i) lt :=
  bsearch go_right i j with decide (i < j) := {
    | left _ =>
        if go_right ((i + j) / 2)
        then bsearch go_right ((i + j) / 2 + 1) j
        else bsearch go_right i ((i + j) / 2)
    | right _ => i }.
Proof.
  all: pose proof (Nat.div_mod_eq (i + j) 2);
    pose proof (Nat.mod_upper_bound (i + j) 2); lia.
Qed.

Equations? symMerge (data : list A) (a m b : nat) : list A by wf (b - a) lt :=
  symMerge data a m b with decide (m - a = 1) := {
    | left _ =>
        let i := bsearch (λ h, Less data h a) m b in
        foldl (λ d k, Swap d k (k + 1)) data (seq a (i - 1 - a))
    | right _ with decide (b - m = 1) := {
        | left _ =>
            let i := bsearch (λ h, negb (Less data m h)) a m in
            foldl (λ d k, Swap d k (k - 1)) data (rev (seq (i + 1) (m - i)))
        | right _ =>
            let mid := (a + b) / 2 in
            let n := mid + m in
            let start0 := if decide (mid < m) then n - b else a in
            let r := if decide (mid < m) then mid else m in
            let p := n - 1 in
            let start := bsearch (λ c, negb (Less data (p - c) c)) start0 r in
            let end_ := n - start in
            let data1 :=
              if decide (start < m ∧ m < end_) then rotate data start m end_ else data in
            let data2 :=
              match decide (a < start ∧ start < mid) with
              | left _ => symMerge data1 a start mid
              | right _ => data1
              end in
            match decide (mid < end_ ∧ end_ < b) with
            | left _ => symMerge data2 mid end_ b
            | right _ => data2
            end } }.
Proof.
  all: subst mid; pose proof (Nat.div_mod_eq (a + b) 2);
    pose proof (Nat.mod_upper_bound (a + b) 2); lia.
Qed.

(** The first loop of [stable]: insertion sort of the blocks of 20. *)
Equations? insertion_blocks (data : list A) (a b n : nat) : list A * nat
    by wf (S n - b) lt :=
  insertion_blocks data a b n with decide (b ≤ n) := {
    | left _ => insertion_blocks (insertionSort data a b) b (b + 20) n
    | right _ => (data, a) }.
Proof. lia. Qed.

(** One pass of merging neighbouring blocks of size [blockSize]:
    [for b <= n { symMerge(data, a, a+blockSize, b); a = b; b += 2 * blockSize }].
    [blockSize] starts at 20 and doubles, it is never 0. *)
Equations? merge_blocks (data : list A) (a b n blockSize : nat) : list A * nat
    by wf (S n - b) lt :=
  merge_blocks data a b n 0 := (data, a);
  merge_blocks data a b n blockSize with decide (b ≤ n) := {
    | left _ =>
        merge_blocks (symMerge data a (a + blockSize) b) b (b + 2 * blockSize) n blockSize
    | right _ => (data, a) }.
Proof. lia. Qed.

(** [for blockSize < n { ...; blockSize *= 2 }]. *)
Equations? merge_passes (data : list A) (n blockSize : nat) : list A
    by wf (n - blockSize) lt :=
  merge_passes data n 0 := data;
  merge_passes data n blockSize with decide (blockSize < n) := {
    | left _ =>
        let '(data1, a) := merge_blocks data 0 (2 * blockSize) n blockSize in
        let data2 :=
          if decide (a + blockSize < n) then symMerge data1 a (a + blockSize) n
          else data1 in
        merge_passes data2 n (2 * blockSize)
    | right _ => data }.
Proof. lia. Qed.

(** [stable(data, n)] with [n = len(data)]. *)
Definition stable (data : list A) : list A :=
  let n := length data in
  let '(data1, a) := insertion_blocks data 0 20 n in
  let data2 := insertionSort data1 a n in
  merge_passes data2 n 20.

End Stable.

(** [sort.SliceStable(x, less)]. *)
Definition SliceStable {A} (x : list A) (less : A → A → bool) : list A :=
  stable less x.

End GoSort.

(** ** Data model *)

(** Addresses of heap objects.  A Go pointer field is an [option loc],
    [None] being [nil]. *)
Definition loc : Type := positive.

Module design.

(** Modelled from the spec: the transport-agnostic package
    [goa.design/goa/design] is not among the sources.  An attribute
    carries a data type; an object type lists its named child
    attributes. *)
Inductive DataType : Type :=
| Object (fields : list (string * loc))
| Primitive (kind : string).

Record AttributeExpr : Type := {
  Type_ : DataType
}.

(** A declared API server and its URL. *)
Record ServerExpr : Type := {
  URL : string
}.

Record APIExpr : Type := {
  Servers : list ServerExpr
}.

(** The design root.  Its API expression is in place once the design DSL
    has run, which is before any HTTP expression is read. *)
Record RootExpr : Type := {
  API : APIExpr
}.

(** The heap of attribute expressions. *)
Abbreviation attributes := (gmap loc AttributeExpr).

(** Attaching a named child attribute to the object at [p]; other types
    and unallocated addresses are left alone. *)
Definition attach (h : attributes) (p : loc) (name : string) (child : loc) : attributes :=
  match h !! p with
  | Some {| Type_ := Object fields |} =>
      <[p := {| Type_ := Object (fields ++ [(name, child)]) |}]> h
  | _ => h
  end.

End design.

(** What [url.Parse] returns: the URL pointer and the error. *)
Module url.

Record URL : Type := {
  Scheme : string;
  Host : string
}.

Record Error : Type := {
  Op : string;
  Err : string
}.

Definition parse_result : Type := option URL * option Error.

(** What every parser standing for [url.Parse] satisfies: with an error
    the URL pointer is [nil]. *)
Definition nil_on_error (Parse : string → parse_result) : Prop :=
  ∀ rawURL u e, Parse rawURL = (u, Some e) → u = None.

(** A parser for the examples, with one of the failures of [url.Parse]: a
    URL that starts with a colon has no protocol scheme.  Every other
    input is given the text before its first colon as scheme. *)
Definition Parse_first_colon (rawURL : string) : parse_result :=
  match rawURL with
  | String c _ =>
      if Ascii.eqb c ":"
      then (None, Some {| Op := "parse"; Err := "missing protocol scheme" |})
      else (Some {| Scheme := if GoStrings.occurs ":" rawURL
                              then GoStrings.before ":" rawURL else EmptyString;
                    Host := EmptyString |}, None)
  | EmptyString => (Some {| Scheme := EmptyString; Host := EmptyString |}, None)
  end.

End url.

(** An HTTP endpoint; the code under study only passes it around. *)
Record EndpointExpr : Type := {
  EndpointName : string
}.

Module FileServerExpr.

Record t : Type := mk {
  (** the parent service *)
  Service : option loc;
  Description : string;
  (** the file path to the static asset(s) *)
  FilePath : string;
  (** the HTTP path that serves the assets *)
  RequestPath : string
}.

End FileServerExpr.

Module ServiceExpr.

(** The fields of the HTTP service expression that the root and the file
    server read.  [Name] is what the method [Name()] returns. *)
Record t : Type := mk {
  Name : string;
  Path : string;
  ParentName : string;
  HTTPEndpoints : list EndpointExpr;
  FileServers : list FileServerExpr.t
}.

End ServiceExpr.

(** The heap of service expressions. *)
Abbreviation services := (gmap loc ServiceExpr.t).

Module RootExpr.

Record t : Type := mk {
  Design : option design.RootExpr;
  Path : string;
  Consumes : list string;
  Produces : list string;
  (** the services created by the DSL, in slice order; [ServiceFor]
      appends allocated services only, no entry is [nil] *)
  HTTPServices : list loc;
  params : option loc;
  headers : option loc
}.

Definition set_HTTPServices (r : t) (v : list loc) : t :=
  mk (Design r) (Path r) (Consumes r) (Produces r) v (params r) (headers r).

Definition set_params (r : t) (v : option loc) : t :=
  mk (Design r) (Path r) (Consumes r) (Produces r) (HTTPServices r) v (headers r).

Definition set_headers (r : t) (v : option loc) : t :=
  mk (Design r) (Path r) (Consumes r) (Produces r) (HTTPServices r) (params r) v.

End RootExpr.

(** The members of an [eval.ExpressionSet]; [NilExpr] is the zero value
    that [make] fills a new set with. *)
Inductive Expression : Type :=
| NilExpr
| ServiceE (p : loc)
| EndpointE (e : EndpointExpr)
| FileServerE (f : FileServerExpr.t).

Abbreviation ExpressionSet := (list Expression).

(** ** File server *)

(** Dereferencing a service pointer. *)
Definition deref (σ : services) (p : option loc) : outcome ServiceExpr.t :=
  match p with
  | None => Panics
  | Some l =>
      match σ !! l with
      | Some svc => Returns svc
      | None => Panics
      end
  end.

(** [Finalize] normalizes the request path.  [Root] is the package-level
    root expression. *)
Definition Finalize (Root : RootExpr.t) (σ : services) (f : FileServerExpr.t)
    : outcome FileServerExpr.t :=
  obind (deref σ (FileServerExpr.Service f)) (λ svc,
    let RequestPath :=
      GoPath.Join [RootExpr.Path Root; ServiceExpr.Path svc; FileServerExpr.RequestPath f] in
    let RequestPath :=
      if negb (GoStrings.HasPrefix RequestPath "/")
      then String.append "/" RequestPath
      else RequestPath in
    Returns (FileServerExpr.mk (FileServerExpr.Service f) (FileServerExpr.Description f)
               (FileServerExpr.FilePath f) RequestPath)).

(** [IsDir]: the file server serves a directory. *)
Definition IsDir (f : FileServerExpr.t) : bool :=
  Regexp.MatchString WildcardRegex (FileServerExpr.RequestPath f).

(** ** Root expression *)

(** [sort.Strings]: increasing byte-wise order.  The order is total, so
    every sorting algorithm gives the same slice. *)
Definition sort_Strings (ss : list string) : list string := merge_sort String.le ss.

(** The body of the loop of [Schemes] for the server [s]:
    [if u, err := url.Parse(s.URL); err != nil { schemes[u.Scheme] = true }].
    Reading [u.Scheme] through a [nil] pointer panics. *)
Definition collect_scheme (url_Parse : string → url.parse_result)
    (acc : outcome (gmap string bool)) (s : design.ServerExpr)
    : outcome (gmap string bool) :=
  obind acc (λ schemes,
    let '(u, err) := url_Parse (design.URL s) in
    match err with
    | Some _ =>
        match u with
        | Some u' => Returns (<[url.Scheme u' := true]> schemes)
        | None => Panics
        end
    | None => Returns schemes
    end).

(** [Schemes] returns the list of HTTP schemes used by the API servers.
    [url_Parse] is the standard library's parser; the [nil] slice is the
    empty list. *)
Definition Schemes (url_Parse : string → url.parse_result) (r : RootExpr.t)
    : outcome (list string) :=
  match RootExpr.Design r with
  | None => Returns []
  | Some d =>
      let schemes :=
        foldl (collect_scheme url_Parse) (Returns ∅) (design.Servers (design.API d)) in
      obind schemes (λ schemes,
        if decide (size schemes = 0) then Returns []
        else
          let ss := fill_indexed EmptyString id (map_to_list schemes).*1 in
          Returns (sort_Strings ss))
  end.

(** [Headers] initializes and returns the attribute holding the API
    headers.  The state is the root and the heap of attributes. *)
Definition Headers (r : RootExpr.t) (h : design.attributes)
    : option loc * (RootExpr.t * design.attributes) :=
  let '(r, h) :=
    match RootExpr.headers r with
    | None =>
        let p := fresh (dom h) in
        (RootExpr.set_headers r (Some p),
         <[p := {| design.Type_ := design.Object [] |}]> h)
    | Some _ => (r, h)
    end in
  (RootExpr.headers r, (r, h)).

(** [Params] initializes and returns the attribute holding the API
    parameters. *)
Definition Params (r : RootExpr.t) (h : design.attributes)
    : option loc * (RootExpr.t * design.attributes) :=
  let '(r, h) :=
    match RootExpr.params r with
    | None =>
        let p := fresh (dom h) in
        (RootExpr.set_params r (Some p),
         <[p := {| design.Type_ := design.Object [] |}]> h)
    | Some _ => (r, h)
    end in
  (RootExpr.params r, (r, h)).

(** [MappedHeaders] and [MappedParams] hand the field to
    [design.NewMappedAttributeExpr], a function of the design package
    taken as the parameter [NewMappedAttributeExpr]. *)
Definition MappedHeaders {M} (NewMappedAttributeExpr : option loc → design.attributes → M)
    (r : RootExpr.t) (h : design.attributes) : M * (RootExpr.t * design.attributes) :=
  (NewMappedAttributeExpr (RootExpr.headers r) h, (r, h)).

Definition MappedParams {M} (NewMappedAttributeExpr : option loc → design.attributes → M)
    (r : RootExpr.t) (h : design.attributes) : M * (RootExpr.t * design.attributes) :=
  (NewMappedAttributeExpr (RootExpr.params r) h, (r, h)).

(** The comparator of [WalkSets]: [less(i, j)] holds when the parent name
    of the service at [j] is the name of the service at [i].  A pointer
    that cannot be dereferenced makes the whole call panic, in the sort or
    in the loop after it; the comparator's value does not matter then. *)
Definition parent_less (σ : services) (si sj : loc) : bool :=
  match σ !! si, σ !! sj with
  | Some svc_i, Some svc_j =>
      bool_decide (ServiceExpr.ParentName svc_j = ServiceExpr.Name svc_i)
  | _, _ => false
  end.

(** The three sets that the loop of [WalkSets] builds. *)
Record walk_sets : Type := WalkState {
  ws_services : ExpressionSet;
  ws_endpoints : ExpressionSet;
  ws_servers : ExpressionSet
}.

(** One round of [for i, svc := range r.HTTPServices]. *)
Definition walk_round (σ : services) (acc : outcome (nat * walk_sets)) (p : loc)
    : outcome (nat * walk_sets) :=
  obind acc (λ '(i, st),
    let services := <[i := ServiceE p]> (ws_services st) in
    obind (deref σ (Some p)) (λ svc,
      let endpoints :=
        foldl (λ es e, es ++ [EndpointE e]) (ws_endpoints st) (ServiceExpr.HTTPEndpoints svc) in
      let servers :=
        foldl (λ ss s, ss ++ [FileServerE s]) (ws_servers st) (ServiceExpr.FileServers svc) in
      Returns (S i, WalkState services endpoints servers))).

(** [WalkSets] iterates through the services to finalize and validate
    them.  [walk] is the callback, acting on a state of its own; the
    result is the root after the call and the callback's state. *)
Definition WalkSets {W} (σ : services) (r : RootExpr.t)
    (walk : ExpressionSet → W → W) (w : W) : outcome (RootExpr.t * W) :=
  let services := replicate (length (RootExpr.HTTPServices r)) NilExpr in
  let r := RootExpr.set_HTTPServices r
             (GoSort.SliceStable (RootExpr.HTTPServices r) (parent_less σ)) in
  obind (foldl (walk_round σ) (Returns (0, WalkState services [] []))
           (RootExpr.HTTPServices r))
    (λ '(_, st),
      let w := walk (ws_services st) w in
      let w := walk (ws_endpoints st) w in
      let w := walk (ws_servers st) w in
      Returns (r, w)).

(** ** Vocabulary of the statements *)

(** The longest prefix of [s] made of bytes of [cls], and what follows. *)
Fixpoint span (cls : ascii → bool) (s : string) : string * string :=
  match s with
  | EmptyString => (EmptyString, EmptyString)
  | String c s' =>
      if cls c then let '(w, rest) := span cls s' in (String c w, rest)
      else (EmptyString, s)
  end.

(** Every byte of [s] is in [cls]. *)
Fixpoint all_bytes (cls : ascii → bool) (s : string) : bool :=
  match s with
  | EmptyString => true
  | String c s' => cls c && all_bytes cls s'
  end.

(** A wildcard name: one or more bytes of [[a-zA-Z0-9_]]. *)
Definition wildcard_name (name : string) : bool :=
  negb (String.eqb name EmptyString) && all_bytes word_byte name.

(** The marker of the wildcard [name]: [/{name}], or [/{*name}] when
    [star] is set. *)
Definition marker (star : bool) (name : string) : string :=
  String.append "/{"
    (String.append (if star then "*" else EmptyString) (String.append name "}")).

(** What [WildcardRegex] matches at the start of [s], computed without
    backtracking. *)
Definition wildcard_here (s : string) : option Regexp.submatch :=
  match s with
  | String c0 (String c1 s2) =>
      if Ascii.eqb c0 "/" && Ascii.eqb c1 "{" then
        let s3 :=
          match s2 with
          | String c2 s3 => if Ascii.eqb c2 "*" then s3 else s2
          | EmptyString => s2
          end in
        match span word_byte s3 with
        | (String _ _ as name, String c r) =>
            if Ascii.eqb c "}"
            then Some (Regexp.Submatch (Regexp.consumed s r) name r)
            else None
        | _ => None
        end
      else None
  | _ => None
  end.

(** Two slashes in a row somewhere in the bytes. *)
Fixpoint double_slash_bytes (l : list ascii) : bool :=
  match l with
  | a :: (b :: _) as t =>
      Ascii.eqb a GoPath.slash && Ascii.eqb b GoPath.slash || double_slash_bytes t
  | _ => false
  end.

Definition double_slash (s : string) : bool :=
  double_slash_bytes (list_ascii_of_string s).

(** The invariant of the loop of [Clean] on its output buffer: no doubled
    slash; a rooted output starts with a slash and keeps [dotdot] at 1, an
    unrooted one does not start with a slash; only the root ends in a
    slash, also where a [..] element must stop. *)
Definition no_double_slash (l : list ascii) : Prop :=
  ∀ i, l !! i = Some GoPath.slash → l !! S i = Some GoPath.slash → False.

Definition slash_last_only_root (l : list ascii) : Prop :=
  last l = Some GoPath.slash → l = [GoPath.slash].

Record clean_inv (rooted : bool) (out : list ascii) (dotdot : nat) : Prop := CleanInv {
  inv_nods : no_double_slash out;
  inv_rooted : rooted = true → head out = Some GoPath.slash ∧ dotdot = 1;
  inv_unrooted : rooted = false → head out ≠ Some GoPath.slash;
  inv_last : slash_last_only_root out;
  inv_dotdot : dotdot ≤ length out;
  inv_dotdot_last : slash_last_only_root (take dotdot out)
}.

(** The endpoints and the file servers of the service at [p], as members
    of an expression set. *)
Definition service_endpoints (σ : services) (p : loc) : ExpressionSet :=
  match σ !! p with
  | Some svc => map EndpointE (ServiceExpr.HTTPEndpoints svc)
  | None => []
  end.

Definition service_servers (σ : services) (p : loc) : ExpressionSet :=
  match σ !! p with
  | Some svc => map FileServerE (ServiceExpr.FileServers svc)
  | None => []
  end.

(** A callback that records the sets it is given, in the order of the
    calls. *)
Definition record_walk (s : ExpressionSet) (trace : list ExpressionSet)
    : list ExpressionSet :=
  trace ++ [s].

(** All server URLs of the root parse without an error. *)
Definition servers_parse (url_Parse : string → url.parse_result) (r : RootExpr.t) : Prop :=
  ∀ d s, RootExpr.Design r = Some d → s ∈ design.Servers (design.API d) →
         (url_Parse (design.URL s)).2 = None.

(** What the specification says of [Schemes]: it returns the sorted
    duplicate-free slice of the non-empty schemes of the servers whose URL
    fails to parse. *)
Definition Schemes_collects_failed (url_Parse : string → url.parse_result)
    (r : RootExpr.t) : Prop :=
  ∃ ss, Schemes url_Parse r = Returns ss
        ∧ Sorted String.le ss ∧ NoDup ss
        ∧ ∀ x, x ∈ ss ↔
               x ≠ EmptyString
               ∧ ∃ d s u e, RootExpr.Design r = Some d
                            ∧ s ∈ design.Servers (design.API d)
                            ∧ url_Parse (design.URL s) = (Some u, Some e)
                            ∧ url.Scheme u = x.

(** ** Example roots *)

Definition root_with_servers (urls : list string) : RootExpr.t :=
  RootExpr.mk
    (Some {| design.API := {| design.Servers := map design.Build_ServerExpr urls |} |})
    "" [] [] [] None None.

(** Three servers whose URLs parse. *)
Definition root_parsed : RootExpr.t :=
  root_with_servers ["https://goa.design"; "http://localhost:8080"; "https://example.com"].

(** A server whose URL has no protocol scheme. *)
Definition root_failed : RootExpr.t :=
  root_with_servers ["https://goa.design"; ":8080"].

(** Three services: a child of ["parent"], an unrelated service and the
    parent, at the addresses 1, 2 and 3. *)
Definition family : services :=
  {[ 1%positive := ServiceExpr.mk "child" "/child" "parent" [] [];
     2%positive := ServiceExpr.mk "other" "/other" "" [] [];
     3%positive := ServiceExpr.mk "parent" "/parent" "" [] [] ]}.

(** A root with the given services, in declaration order. *)
Definition root_with_services (ps : list loc) : RootExpr.t :=
  RootExpr.mk None "" [] [] ps None None.

(** In the batch [ps] every parent stands before its children: a service
    whose parent name is the name of another service of the batch comes
    after that service. *)
Definition parents_first (σ : services) (ps : list loc) : Prop :=
  ∀ i j c p child parent,
    ps !! i = Some c → ps !! j = Some p →
    σ !! c = Some child → σ !! p = Some parent →
    ServiceExpr.ParentName child = ServiceExpr.Name parent →
    c ≠ p → j < i.

(** Two services with endpoints and file servers: orders, at address 1,
    is a child of accounts, at address 2. *)
Definition shop : services :=
  {[ 1%positive :=
       ServiceExpr.mk "orders" "/orders" "accounts"
         [Build_EndpointExpr "list"; Build_EndpointExpr "show"]
         [FileServerExpr.mk (Some 1%positive) "" "public/orders" "/static/{*path}"];
     2%positive :=
       ServiceExpr.mk "accounts" "/accounts" ""
         [Build_EndpointExpr "create"]
         [FileServerExpr.mk (Some 2%positive) "" "public/logo.png" "/logo.png";
          FileServerExpr.mk (Some 2%positive) "" "public/docs" "/docs/{*path}"] ]}.

(** The service at [c] names the service at [p] as its parent: its parent
    name is the name of that service. *)
Definition names_parent (σ : services) (c p : loc) : Prop :=
  ∃ child parent,
    σ !! c = Some child ∧ σ !! p = Some parent
    ∧ ServiceExpr.ParentName child = ServiceExpr.Name parent.

(** * More of the root and of the file server *)

(** ** Service lookup and creation *)

Module design_service.

(** Modelled from the spec: the transport-agnostic service expression of
    package [goa.design/goa/design], which is not among the sources.  The
    HTTP root reads only its name. *)
Record ServiceExpr : Type := {
  Name : string
}.

End design_service.

(** The loop of [Service]: the first service of the slice whose name is
    [name], [nil] without one.  Calling [Name()] through a pointer that
    cannot be dereferenced panics. *)
Fixpoint Service_loop (σ : services) (ps : list loc) (name : string)
    : outcome (option loc) :=
  match ps with
  | [] => Returns None
  | res :: ps' =>
      obind (deref σ (Some res)) (λ svc,
        if String.eqb (ServiceExpr.Name svc) name then Returns (Some res)
        else Service_loop σ ps' name)
  end.

(** [Service] returns the service with the given name if any. *)
Definition Service (σ : services) (r : RootExpr.t) (name : string)
    : outcome (option loc) :=
  Service_loop σ (RootExpr.HTTPServices r) name.

(** The service expression [&ServiceExpr{ServiceExpr: s}]: the name is
    the one of [s], every other field has its zero value. *)
Definition new_service (s : design_service.ServiceExpr) : ServiceExpr.t :=
  ServiceExpr.mk (design_service.Name s) EmptyString EmptyString [] [].

(** [ServiceFor] creates a new or returns the existing service definition
    for the given service.  The state is the heap of services and the
    root; a new service is allocated at a free address and appended to
    the slice of the root. *)
Definition ServiceFor (σ : services) (r : RootExpr.t) (s : design_service.ServiceExpr)
    : outcome (loc * (services * RootExpr.t)) :=
  obind (Service σ r (design_service.Name s)) (λ found,
    match found with
    | Some res => Returns (res, (σ, r))
    | None =>
        let res := fresh (dom σ) in
        Returns (res,
                 (<[res := new_service s]> σ,
                  RootExpr.set_HTTPServices r (RootExpr.HTTPServices r ++ [res])))
    end).

(** [EvalName] of a file server: the name used in error messages.
    [service_EvalName] stands for the method of the same name of the
    service expression, which is not among the sources. *)
Definition FileServer_EvalName (service_EvalName : ServiceExpr.t → string)
    (σ : services) (f : FileServerExpr.t) : outcome string :=
  let suffix := String.append "file server " (FileServerExpr.FilePath f) in
  match FileServerExpr.Service f with
  | Some _ =>
      obind (deref σ (FileServerExpr.Service f)) (λ svc,
        let prefix := String.append (service_EvalName svc) " " in
        Returns (String.append prefix suffix))
  | None => Returns (String.append EmptyString suffix)
  end.

(** ** Vocabulary of the further statements *)

(** Every service pointer of the slice can be dereferenced. *)
Definition services_allocated (σ : services) (ps : list loc) : Prop :=
  ∀ p, p ∈ ps → is_Some (σ !! p).

(** The names of the services of the slice, in slice order; a pointer
    that cannot be dereferenced has no name. *)
Definition service_names (σ : services) (ps : list loc) : list string :=
  omap (λ p, ServiceExpr.Name <$> σ !! p) ps.

(** [strings.Join(elems, sep)] for a one-byte separator. *)
Fixpoint join_with (sep : ascii) (elems : list string) : string :=
  match elems with
  | [] => EmptyString
  | [e] => e
  | e :: elems' => String.append e (String sep (join_with sep elems'))
  end.

(** The last byte of a string. *)
Definition last_byte (s : string) : option ascii := last (list_ascii_of_string s).

(** Insertion of [x] into the slice to its left, which [rl] lists from
    right to left: [x] moves left past every neighbour it is less than. *)
Fixpoint sink {A} (less : A → A → bool) (x : A) (rl : list A) : list A :=
  match rl with
  | [] => [x]
  | y :: rl' => if less x y then y :: sink less x rl' else x :: rl
  end.

(** Insertion sort on lists, the sorted part kept from right to left. *)
Fixpoint insertion_rounds {A} (less : A → A → bool) (rdone todo : list A) : list A :=
  match todo with
  | [] => rdone
  | x :: todo' => insertion_rounds less (sink less x rdone) todo'
  end.

(** No element is less than its left neighbour; [rl] lists the slice from
    right to left. *)
Fixpoint no_inversion {A} (less : A → A → bool) (rl : list A) : Prop :=
  match rl with
  | y1 :: ((y2 :: _) as rl') => less y1 y2 = false ∧ no_inversion less rl'
  | _ => True
  end.

(** [a] stands somewhere before [b] in the slice. *)
Definition before_in {A} (a b : A) (l : list A) : Prop :=
  ∃ l1 l2 l3, l = l1 ++ a :: l2 ++ b :: l3.

(** The service at [p] is followed at once by its parent [q]. *)
Definition child_then_parent (σ : services) (p q : loc) : Prop :=
  parent_less σ q p = true.

(** No two services of the slice name each other as parent, and none
    names itself. *)
Definition no_mutual_parents (σ : services) (ps : list loc) : bool :=
  forallb (λ p, forallb (λ q, negb (parent_less σ p q && parent_less σ q p)) ps) ps.

(** No service of the slice names a service of the slice as parent. *)
Definition no_parents (σ : services) (ps : list loc) : bool :=
  forallb (λ p, forallb (λ q, negb (parent_less σ p q)) ps) ps.

(** * Properties *)

(** ** NameMap *)

Lemma Split_before_after (sep : ascii) (s : string) :
  GoStrings.Split s sep =
  GoStrings.before sep s ::
    (if GoStrings.occurs sep s then GoStrings.Split (GoStrings.after sep s) sep else []).
Proof.
  induction s as [|c s IH]; simpl; [done|].
  destruct (Ascii.eqb c sep); simpl; [done|].
  rewrite IH. done.
Qed.

Lemma before_no_sep (sep : ascii) (s : string) :
  GoStrings.occurs sep s = false → GoStrings.before sep s = s.
Proof.
  induction s as [|c s IH]; simpl; [done|].
  destruct (Ascii.eqb c sep); simpl; [done|].
  intros H. by rewrite IH.
Qed.

Lemma before_app (sep : ascii) (a rest : string) :
  GoStrings.occurs sep a = false →
  GoStrings.before sep (String.append a (String sep rest)) = a.
Proof.
  induction a as [|c a IH]; simpl.
  - by rewrite Ascii.eqb_refl.
  - destruct (Ascii.eqb c sep); simpl; [done|]. intros H. by rewrite IH.
Qed.

Lemma after_app (sep : ascii) (a rest : string) :
  GoStrings.occurs sep a = false →
  GoStrings.after sep (String.append a (String sep rest)) = rest.
Proof.
  induction a as [|c a IH]; simpl.
  - by rewrite Ascii.eqb_refl.
  - destruct (Ascii.eqb c sep); simpl; [done|]. intros H. by rewrite IH.
Qed.

Lemma occurs_app (sep : ascii) (a rest : string) :
  GoStrings.occurs sep (String.append a (String sep rest)) = true.
Proof.
  induction a as [|c a IH]; simpl.
  - by rewrite Ascii.eqb_refl.
  - rewrite IH. apply orb_true_r.
Qed.

(** The two names in terms of the first and the second colon. *)
Lemma NameMap_unfold (encoded : string) :
  NameMap encoded =
  Returns (GoStrings.before ":" encoded,
           if GoStrings.occurs ":" encoded
           then GoStrings.before ":" (GoStrings.after ":" encoded)
           else GoStrings.before ":" encoded).
Proof.
  unfold NameMap. rewrite Split_before_after. simpl.
  destruct (GoStrings.occurs ":" encoded); simpl; [|done].
  rewrite Split_before_after. simpl. done.
Qed.

(** C3, as amended.  [NameMap] splits on every colon and keeps the first
    two pieces: without a colon both names are the token; with one the
    attribute name is the text before it and the element name the text
    after it; with more the element name stops at the second colon. *)
Theorem NameMap_first_two_pieces (encoded a b c : string) :
  (GoStrings.occurs ":" encoded = false → NameMap encoded = Returns (encoded, encoded))
  ∧ (GoStrings.occurs ":" a = false → GoStrings.occurs ":" b = false →
     NameMap (String.append a (String ":" b)) = Returns (a, b)
     ∧ NameMap (String.append a (String ":" (String.append b (String ":" c)))) = Returns (a, b)).
Proof.
  split.
  - intros H. rewrite NameMap_unfold, H. by rewrite before_no_sep.
  - intros Ha Hb. rewrite !NameMap_unfold, !occurs_app, !before_app, !after_app by done.
    by rewrite before_app, before_no_sep.
Qed.

Lemma NameMap_first_two_pieces_witness :
  NameMap "id" = Returns ("id", "id")
  ∧ NameMap "id:X-User-Id" = Returns ("id", "X-User-Id")
  ∧ NameMap "a:b:c" = Returns ("a", "b").
Proof.
  destruct (NameMap_first_two_pieces "id" "id" "X-User-Id" "") as [H1 [H2 _]];
    [reflexivity..|].
  destruct (NameMap_first_two_pieces "id" "a" "b" "c") as [_ [_ H3]];
    [reflexivity..|].
  split; [apply H1; reflexivity|]. split; [exact H2 | exact H3].
Defined.

(** The remainder after the first colon is not what [NameMap] returns
    when a second colon follows. *)
Lemma NameMap_remainder_counterexample :
  GoStrings.occurs ":" "a" = false
  ∧ NameMap (String.append "a" (String ":" "b:c")) ≠ Returns ("a", "b:c").
Proof. split; [reflexivity|]. vm_compute. discriminate. Qed.

(** ** Slices filled by index *)

Lemma fill_indexed_loop {A B} (f : A → B) (xs : list A) (done_ todo : list B) :
  length todo = length xs →
  foldl (λ '(i, out) x, (S i, <[i := f x]> out)) (length done_, done_ ++ todo) xs
  = (length done_ + length xs, done_ ++ map f xs).
Proof.
  revert done_ todo. induction xs as [|x xs IH]; intros done_ todo Hlen.
  - destruct todo; [|done]. simpl. by rewrite Nat.add_0_r.
  - destruct todo as [|t todo]; [done|]. simpl.
    assert (Hins : <[length done_ := f x]> (done_ ++ t :: todo) = (done_ ++ [f x]) ++ todo).
    { rewrite insert_app_r_alt by lia. rewrite Nat.sub_diag. simpl. by rewrite <- app_assoc. }
    rewrite Hins.
    replace (S (length done_)) with (length (done_ ++ [f x])) by (rewrite length_app; simpl; lia).
    rewrite IH by (simpl in Hlen; lia).
    rewrite length_app, <- app_assoc. simpl. f_equal. lia.
Qed.

Lemma fill_indexed_map {A B} (zero : B) (f : A → B) (xs : list A) :
  fill_indexed zero f xs = map f xs.
Proof.
  unfold fill_indexed.
  pose proof (fill_indexed_loop f xs [] (replicate (length xs) zero)) as H.
  simpl in H. rewrite H by apply length_replicate. done.
Qed.

(** ** The wildcard pattern *)

Lemma append_cons (c : ascii) (w r : string) :
  String.append (String c w) r = String c (String.append w r).
Proof. reflexivity. Qed.

Lemma append_empty (r : string) : String.append EmptyString r = r.
Proof. reflexivity. Qed.

Lemma span_app (cls : ascii → bool) (s : string) :
  String.append (span cls s).1 (span cls s).2 = s.
Proof.
  induction s as [|c s IH]; simpl; [done|].
  destruct (cls c); simpl; [|done].
  destruct (span cls s) as [w rest]. simpl in *.
  rewrite append_cons. by f_equal.
Qed.

Lemma span_rest_head (cls : ascii → bool) (s : string) c r :
  (span cls s).2 = String c r → cls c = false.
Proof.
  induction s as [|a s IH]; simpl; [done|].
  destruct (cls a) eqn:Ha; simpl.
  - destruct (span cls s) as [w rest]. simpl in *. done.
  - intros [= -> _]. done.
Qed.

Lemma span_word_all (cls : ascii → bool) (s : string) :
  all_bytes cls (span cls s).1 = true.
Proof.
  induction s as [|a s IH]; simpl; [done|].
  destruct (cls a) eqn:Ha; simpl; [|done].
  destruct (span cls s) as [w rest]. simpl in *. by rewrite Ha.
Qed.

Lemma span_all_app (cls : ascii → bool) (w : string) c r :
  all_bytes cls w = true → cls c = false →
  span cls (String.append w (String c r)) = (w, String c r).
Proof.
  intros Hw Hc. induction w as [|a w IH]; simpl in *.
  - by rewrite Hc.
  - apply andb_prop in Hw as [Ha Hw]. rewrite Ha, IH by done. done.
Qed.

(** The greedy loop needs no backtracking when the continuation fails
    before every byte of the class. *)
Lemma plus_loop_span {R} (cls : ascii → bool) (s : string) (k : string → option R) :
  (∀ c r, cls c = true → k (String c r) = None) →
  Regexp.plus_loop cls s k =
  match span cls s with
  | (EmptyString, _) => None
  | (_, rest) => k rest
  end.
Proof.
  intros Hk. induction s as [|c s IH]; simpl; [done|].
  destruct (cls c) eqn:Hc; [|done].
  rewrite IH. clear IH.
  pose proof (span_app cls s) as Happ. pose proof (span_word_all cls s) as Hall.
  destruct (span cls s) as [w rest]. simpl in *.
  destruct w as [|a w]; simpl in *.
  - by subst.
  - destruct (k rest) eqn:Hrest; [done|].
    apply andb_prop in Hall as [Ha _].
    subst s. rewrite append_cons. by apply Hk.
Qed.

Lemma length_append (a b : string) :
  String.length (String.append a b) = String.length a + String.length b.
Proof. induction a as [|c a IH]; simpl; [done|]. by rewrite IH. Qed.

Lemma substring_prefix (a b : string) :
  substring 0 (String.length a) (String.append a b) = a.
Proof.
  induction a as [|c a IH]; simpl.
  - by destruct b.
  - by rewrite IH.
Qed.

Lemma consumed_app (a rest : string) :
  Regexp.consumed (String.append a rest) rest = a.
Proof.
  unfold Regexp.consumed. rewrite length_append.
  replace (String.length a + String.length rest - String.length rest)
    with (String.length a) by lia.
  apply substring_prefix.
Qed.

Lemma consumed_span (cls : ascii → bool) (s : string) :
  Regexp.consumed s (span cls s).2 = (span cls s).1.
Proof. rewrite <- (span_app cls s) at 1. apply consumed_app. Qed.

(** [WildcardRegex] at the start of the input, without backtracking. *)
Lemma match_here_wildcard (s : string) :
  Regexp.match_here WildcardRegex s = wildcard_here s.
Proof.
  unfold Regexp.match_here, WildcardRegex, wildcard_here.
  destruct s as [|c0 [|c1 s2]]; simpl; [done| by destruct (Ascii.eqb c0 "/") |].
  destruct (Ascii.eqb c0 "/"); simpl; [|done].
  destruct (Ascii.eqb c1 "{"); simpl; [|done].
  set (k := λ (s3 : string) (rest : string),
         match rest with
         | String c r =>
             if Ascii.eqb c "}"
             then Some (Regexp.Submatch (Regexp.consumed (String c0 (String c1 s2)) r)
                          (Regexp.consumed s3 rest) r)
             else None
         | EmptyString => None
         end).
  assert (Hk : ∀ s3 c r, word_byte c = true → k s3 (String c r) = None).
  { intros s3 c r Hc. unfold k. destruct (Ascii.eqb c "}") eqn:E; [|done].
    apply Ascii.eqb_eq in E. subst c. done. }
  assert (Hplus : ∀ s3,
    Regexp.plus_loop word_byte s3 (k s3) =
    match span word_byte s3 with
    | (String _ _ as name, String c r) =>
        if Ascii.eqb c "}"
        then Some (Regexp.Submatch (Regexp.consumed (String c0 (String c1 s2)) r) name r)
        else None
    | _ => None
    end).
  { intros s3. rewrite plus_loop_span by apply Hk.
    pose proof (consumed_span word_byte s3) as Hc.
    destruct (span word_byte s3) as [[|a w] rest]; simpl in *; [done|].
    unfold k. rewrite Hc. done. }
  destruct s2 as [|c2 s3].
  - apply (Hplus EmptyString).
  - destruct (Ascii.eqb c2 "*") eqn:E.
    + apply Ascii.eqb_eq in E. subst c2.
      change (match Regexp.plus_loop word_byte s3 (k s3) with
              | Some x => Some x
              | None => Regexp.plus_loop word_byte (String "*" s3) (k (String "*" s3))
              end = match span word_byte s3 with
                    | (String _ _ as name, String c r) =>
                        if Ascii.eqb c "}"
                        then Some (Regexp.Submatch (Regexp.consumed (String c0 (String c1 (String "*" s3))) r) name r)
                        else None
                    | _ => None
                    end).
      rewrite Hplus. simpl.
      by destruct (span word_byte s3) as [[|a w] [|c r]]; try destruct (Ascii.eqb c "}").
    + apply (Hplus (String c2 s3)).
Qed.

Lemma append_assoc (a b c : string) :
  String.append (String.append a b) c = String.append a (String.append b c).
Proof.
  induction a as [|x a IH]; [done|]. by rewrite !append_cons, IH.
Qed.

Lemma wildcard_name_inv (name : string) :
  wildcard_name name = true →
  ∃ a w, name = String a w ∧ all_bytes word_byte name = true.
Proof.
  unfold wildcard_name. intros [Hne Hall]%andb_prop.
  destruct name as [|a w]; [done|]. eauto.
Qed.

Lemma marker_app (star : bool) (name rest : string) :
  String.append (marker star name) rest
  = String "/" (String "{"
      (String.append (if star then "*" else "") (String.append name (String "}" rest)))).
Proof.
  unfold marker. rewrite !append_assoc. done.
Qed.

(** A marker at the start of the input is matched, whole. *)
Lemma wildcard_here_marker (star : bool) (name rest : string) :
  wildcard_name name = true →
  wildcard_here (String.append (marker star name) rest)
  = Some (Regexp.Submatch (marker star name) name rest).
Proof.
  intros (a & w & -> & Hall)%wildcard_name_inv.
  pose proof (consumed_app (marker star (String a w)) rest) as Hc.
  rewrite marker_app in Hc |- *.
  unfold wildcard_here. simpl Ascii.eqb. simpl andb. cbv iota.
  assert (Hstar :
    match String.append (if star then "*" else "") (String.append (String a w) (String "}" rest)) with
    | String c2 s3 =>
        if Ascii.eqb c2 "*" then s3
        else String.append (if star then "*" else "") (String.append (String a w) (String "}" rest))
    | EmptyString => String.append (if star then "*" else "") (String.append (String a w) (String "}" rest))
    end = String.append (String a w) (String "}" rest)).
  { destruct star.
    - done.
    - rewrite append_empty, append_cons.
      destruct (Ascii.eqb a "*") eqn:E; [|done].
      apply Ascii.eqb_eq in E. subst a. simpl in Hall. done. }
  rewrite Hstar. rewrite span_all_app by done.
  simpl Ascii.eqb. cbv iota. by rewrite Hc.
Qed.

(** Whatever is matched at the start of the input is a marker. *)
Lemma wildcard_here_inv (s : string) (m : Regexp.submatch) :
  wildcard_here s = Some m →
  ∃ star, wildcard_name (Regexp.group1 m) = true
          ∧ Regexp.whole m = marker star (Regexp.group1 m)
          ∧ s = String.append (Regexp.whole m) (Regexp.after m).
Proof.
  unfold wildcard_here.
  destruct s as [|c0 [|c1 s2]]; [done..|].
  destruct (Ascii.eqb c0 "/") eqn:E0; [|done].
  destruct (Ascii.eqb c1 "{") eqn:E1; [|done].
  apply Ascii.eqb_eq in E0, E1. subst c0 c1. simpl andb. cbv iota.
  set (s3 := match s2 with
             | String c2 s3 => if Ascii.eqb c2 "*" then s3 else s2
             | EmptyString => s2
             end).
  assert (Hs2 : ∃ star : bool, s2 = String.append (if star then "*" else "") s3).
  { subst s3. destruct s2 as [|c2 s3]; [by exists false|].
    destruct (Ascii.eqb c2 "*") eqn:E; [|by exists false].
    apply Ascii.eqb_eq in E. subst c2. by exists true. }
  destruct Hs2 as [star Hs2].
  pose proof (span_app word_byte s3) as Happ.
  pose proof (span_word_all word_byte s3) as Hall.
  destruct (span word_byte s3) as [[|a w] [|c r]]; [done..|].
  simpl in Happ, Hall.
  destruct (Ascii.eqb c "}") eqn:E; [|done].
  apply Ascii.eqb_eq in E. subst c. intros [= <-]. simpl.
  exists star.
  assert (Hs : String "/" (String "{" s2) = String.append (marker star (String a w)) r).
  { by rewrite marker_app, Hs2, <- Happ. }
  rewrite Hs, consumed_app. done.
Qed.

Lemma span_app_stop (cls : ascii → bool) (t : string) (c : ascii) (u : string) :
  cls c = false →
  span cls (String.append t (String c u))
  = ((span cls t).1, String.append (span cls t).2 (String c u)).
Proof.
  intros Hc. induction t as [|a t IH].
  - rewrite append_empty. simpl. by rewrite Hc.
  - rewrite append_cons. simpl. destruct (cls a); [|done].
    rewrite IH. by destruct (span cls t).
Qed.

(** A slash after the input does not create a match at its start. *)
Lemma wildcard_here_app_slash (c : ascii) (p x : string) :
  wildcard_here (String c p) = None →
  wildcard_here (String.append (String c p) (String "/" x)) = None.
Proof.
  rewrite append_cons. unfold wildcard_here.
  destruct p as [|c1 s2].
  - rewrite append_empty. by destruct (Ascii.eqb c "/").
  - rewrite append_cons.
    destruct (Ascii.eqb c "/" && Ascii.eqb c1 "{"); [|done].
    assert (Hspan : ∀ t,
      match span word_byte t with
      | (String _ _ as name, String c' r) =>
          if Ascii.eqb c' "}"
          then Some (Regexp.Submatch (Regexp.consumed (String c (String c1 s2)) r) name r)
          else None
      | _ => None
      end = None →
      match span word_byte (String.append t (String "/" x)) with
      | (String _ _ as name, String c' r) =>
          if Ascii.eqb c' "}"
          then Some (Regexp.Submatch
                       (Regexp.consumed (String c (String c1 (String.append s2 (String "/" x)))) r)
                       name r)
          else None
      | _ => None
      end = None).
    { intros t. rewrite span_app_stop by done.
      destruct (span word_byte t) as [[|a w] [|c' r]]; cbn [fst snd];
        rewrite ?append_empty, ?append_cons; try done.
      by destruct (Ascii.eqb c' "}"). }
    destruct s2 as [|c2 s3].
    + intros _. rewrite append_empty. simpl. done.
    + rewrite append_cons. destruct (Ascii.eqb c2 "*").
      * apply Hspan.
      * rewrite <- append_cons. apply Hspan.
Qed.

Section find_all.

Context (r : Regexp.regex).

(** Fuel above the length of the input is never used up. *)
Lemma find_all_fuel (f1 f2 : nat) (s : string) :
  String.length s < f1 → String.length s < f2 →
  Regexp.find_all f1 r s = Regexp.find_all f2 r s.
Proof.
  revert f2 s. induction f1 as [|f1 IH]; intros [|f2] s H1 H2; [lia..|].
  simpl. destruct (Regexp.match_here r s) as [m|].
  - case_decide.
    + f_equal. apply IH; lia.
    + destruct s as [|c s]; [done|]. f_equal. apply IH; simpl in *; lia.
  - destruct s as [|c s]; [done|]. apply IH; simpl in *; lia.
Qed.

Lemma find_all_no_match (fuel : nat) (s : string) :
  Regexp.MatchString r s = false → Regexp.find_all fuel r s = [].
Proof.
  revert fuel. induction s as [|c s IH]; intros [|fuel]; simpl; try done.
  - by destruct (Regexp.match_here r "").
  - destruct (Regexp.match_here r (String c s)); [done|]. apply IH.
Qed.

Lemma find_all_match (fuel : nat) (s : string) :
  Regexp.MatchString r s = true → String.length s < fuel →
  Regexp.find_all fuel r s ≠ [].
Proof.
  revert fuel. induction s as [|c s IH]; intros [|fuel]; simpl; try lia.
  - by destruct (Regexp.match_here r "").
  - destruct (Regexp.match_here r (String c s)).
    + intros _ _. by case_decide.
    + intros Hm Hlen. apply IH; [done|lia].
Qed.

(** [MatchString] and [FindAllStringSubmatch] agree on whether there is a
    match. *)
Lemma MatchString_find_all (s : string) :
  Regexp.MatchString r s = true ↔ Regexp.FindAllStringSubmatch r s ≠ [].
Proof.
  unfold Regexp.FindAllStringSubmatch. split.
  - intros H. apply find_all_match; [done|lia].
  - intros H. destruct (Regexp.MatchString r s) eqn:E; [done|].
    by rewrite find_all_no_match in H.
Qed.

End find_all.

(** The search runs over a marker-free prefix without a match. *)
Lemma find_all_skip_prefix (pre x : string) (fuel : nat) :
  Regexp.MatchString WildcardRegex pre = false →
  String.length pre < fuel →
  Regexp.find_all fuel WildcardRegex (String.append pre (String "/" x))
  = Regexp.find_all (fuel - String.length pre) WildcardRegex (String "/" x).
Proof.
  revert fuel. induction pre as [|c p IH]; intros fuel Hm Hlen.
  - rewrite append_empty. simpl. by rewrite Nat.sub_0_r.
  - destruct fuel as [|fuel]; [lia|].
    simpl in Hm. rewrite match_here_wildcard in Hm.
    destruct (wildcard_here (String c p)) eqn:Hh; [done|].
    cbn [Regexp.find_all]. rewrite match_here_wildcard, wildcard_here_app_slash by done.
    rewrite append_cons. rewrite IH; [done..|simpl in *; lia].
Qed.

Lemma ExtractWildcards_cons (pre rest name : string) (star : bool) :
  Regexp.MatchString WildcardRegex pre = false →
  wildcard_name name = true →
  ExtractWildcards (String.append pre (String.append (marker star name) rest))
  = name :: ExtractWildcards rest.
Proof.
  intros Hpre Hname. unfold ExtractWildcards, Regexp.FindAllStringSubmatch.
  rewrite !fill_indexed_map.
  assert (Hlen : String.length rest + 4 ≤ String.length (String.append (marker star name) rest)).
  { destruct (wildcard_name_inv _ Hname) as (a & w & -> & _).
    rewrite marker_app. simpl. rewrite !length_append. simpl. lia. }
  rewrite length_append.
  remember (String.length (String.append (marker star name) rest)) as n eqn:Hn.
  rewrite marker_app.
  rewrite find_all_skip_prefix; [|done|lia].
  replace (S (String.length pre + n) - String.length pre) with (S n) by lia.
  rewrite <- marker_app.
  cbn [Regexp.find_all]. rewrite match_here_wildcard, wildcard_here_marker by done.
  cbn [Regexp.after]. rewrite decide_True by lia.
  rewrite (find_all_fuel WildcardRegex n (S (String.length rest))) by lia.
  done.
Qed.

(** [MatchString] finds a match exactly when a marker occurs in the
    input. *)
Lemma MatchString_marker (s : string) :
  Regexp.MatchString WildcardRegex s = true ↔
  ∃ pre star name rest,
    wildcard_name name = true
    ∧ s = String.append pre (String.append (marker star name) rest).
Proof.
  split.
  - induction s as [|c s IH]; cbn [Regexp.MatchString]; rewrite match_here_wildcard.
    + done.
    + destruct (wildcard_here (String c s)) as [m|] eqn:Hm.
      * intros _. apply wildcard_here_inv in Hm as (star & Hname & Hw & Hs).
        exists EmptyString, star, (Regexp.group1 m), (Regexp.after m).
        by rewrite append_empty, <- Hw.
      * intros (pre & star & name & rest & Hname & ->)%IH.
        by exists (String c pre), star, name, rest.
  - intros (pre & star & name & rest & Hname & ->).
    induction pre as [|c pre IH].
    + rewrite append_empty, marker_app. cbn [Regexp.MatchString].
      by rewrite <- marker_app, match_here_wildcard, wildcard_here_marker.
    + rewrite append_cons. cbn [Regexp.MatchString]. rewrite IH.
      by destruct (Regexp.match_here _ _).
Qed.

(** C7.  [ExtractWildcards] returns the names of the markers [/{name}] and
    [/{*name}] of the path from left to right, duplicates included: a
    path without a marker gives the empty slice, and a path whose first
    marker comes after the marker-free prefix [pre] gives the name of that
    marker followed by the wildcards of the rest of the path.  A prefix is
    marker-free exactly when the pattern does not match in it. *)
Theorem ExtractWildcards_markers (pre name rest : string) (star : bool) :
  (Regexp.MatchString WildcardRegex pre = false ↔
   ¬ ∃ p st n r, wildcard_name n = true
                 ∧ pre = String.append p (String.append (marker st n) r))
  ∧ (Regexp.MatchString WildcardRegex pre = false → ExtractWildcards pre = [])
  ∧ (Regexp.MatchString WildcardRegex pre = false → wildcard_name name = true →
     ExtractWildcards (String.append pre (String.append (marker star name) rest))
     = name :: ExtractWildcards rest).
Proof.
  split; [|split].
  - rewrite <- MatchString_marker. by destruct (Regexp.MatchString _ _).
  - intros H. unfold ExtractWildcards, Regexp.FindAllStringSubmatch.
    by rewrite find_all_no_match.
  - apply ExtractWildcards_cons.
Qed.

Lemma ExtractWildcards_markers_witness :
  ExtractWildcards "/users/{id}/files/{*path}" = ["id"; "path"]
  ∧ ExtractWildcards "/static" = []
  ∧ ExtractWildcards "/{a}/{a}" = ["a"; "a"].
Proof.
  destruct (ExtractWildcards_markers "/users" "id" "/files/{*path}" false) as (_ & _ & H1).
  destruct (ExtractWildcards_markers "/files" "path" "" true) as (_ & _ & H2).
  destruct (ExtractWildcards_markers "/static" "" "" false) as (_ & H3 & _).
  destruct (ExtractWildcards_markers "" "a" "/{a}" false) as (_ & _ & H4).
  destruct (ExtractWildcards_markers "" "a" "" false) as (_ & _ & H5).
  split; [|split].
  - change (ExtractWildcards (String.append "/users" (String.append (marker false "id") "/files/{*path}"))
            = ["id"; "path"]).
    rewrite H1 by reflexivity.
    change (ExtractWildcards "/files/{*path}")
      with (ExtractWildcards (String.append "/files" (String.append (marker true "path") ""))).
    rewrite H2 by reflexivity. reflexivity.
  - apply H3. reflexivity.
  - change (ExtractWildcards (String.append "" (String.append (marker false "a") "/{a}"))
            = ["a"; "a"]).
    rewrite H4 by reflexivity.
    change (ExtractWildcards "/{a}")
      with (ExtractWildcards (String.append "" (String.append (marker false "a") ""))).
    rewrite H5 by reflexivity. reflexivity.
Defined.

(** C8.  [IsDir] holds exactly when [ExtractWildcards] finds a wildcard in
    the request path, that is when a marker occurs in it. *)
Theorem IsDir_iff_wildcards :
  (∀ f : FileServerExpr.t,
     IsDir f = true ↔ ExtractWildcards (FileServerExpr.RequestPath f) ≠ [])
  ∧ (∀ f : FileServerExpr.t,
       IsDir f = true ↔
       ∃ pre star name rest,
         wildcard_name name = true
         ∧ FileServerExpr.RequestPath f
           = String.append pre (String.append (marker star name) rest))
  ∧ IsDir (FileServerExpr.mk None "" "public" "/api/v1/assets/{*filepath}") = true
  ∧ IsDir (FileServerExpr.mk None "" "logo.png" "/api/v1/logo.png") = false.
Proof.
  split; [|split; [|split]]; [| |reflexivity..].
  - intros f. unfold IsDir, ExtractWildcards. rewrite fill_indexed_map.
    rewrite MatchString_find_all.
    destruct (Regexp.FindAllStringSubmatch _ _); simpl; naive_solver.
  - intros f. apply MatchString_marker.
Qed.

Lemma IsDir_iff_wildcards_witness :
  ExtractWildcards "/api/v1/assets/{*filepath}" ≠ []
  ∧ ExtractWildcards "/api/v1/logo.png" = [].
Proof.
  destruct IsDir_iff_wildcards as (H & _). split.
  - apply (H (FileServerExpr.mk None "" "public" "/api/v1/assets/{*filepath}")).
    reflexivity.
  - destruct (ExtractWildcards "/api/v1/logo.png") as [|name names] eqn:E; [done|].
    assert (IsDir (FileServerExpr.mk None "" "logo.png" "/api/v1/logo.png") = true) as Hdir.
    { apply H. cbn [FileServerExpr.RequestPath]. by rewrite E. }
    discriminate Hdir.
Defined.

(** ** Path cleaning *)

Lemma no_double_slash_take (l : list ascii) (n : nat) :
  no_double_slash l → no_double_slash (take n l).
Proof.
  intros H i [H1 _]%lookup_take_Some [H2 _]%lookup_take_Some. eauto.
Qed.

Lemma no_double_slash_app (l e : list ascii) :
  no_double_slash l → GoPath.slash ∉ e → no_double_slash (l ++ e).
Proof.
  intros H He i H1 H2.
  apply lookup_app_Some in H2 as [H2|[_ H2]].
  - apply lookup_app_Some in H1 as [H1|[Hlen _]]; [eauto|].
    apply lookup_lt_Some in H2. lia.
  - apply He. by eapply list_elem_of_lookup_2.
Qed.

Lemma no_double_slash_snoc (l : list ascii) :
  no_double_slash l → last l ≠ Some GoPath.slash →
  no_double_slash (l ++ [GoPath.slash]).
Proof.
  intros H Hl i H1 H2.
  apply lookup_app_Some in H2 as [H2|[Hlen H2]].
  - apply lookup_app_Some in H1 as [H1|[Hlen _]]; [eauto|].
    apply lookup_lt_Some in H2. lia.
  - apply list_lookup_singleton_Some in H2 as [Hi _].
    apply lookup_app_Some in H1 as [H1|[Hlen' _]]; [|lia].
    apply Hl. rewrite last_lookup.
    replace (pred (length l)) with i by lia. done.
Qed.

Lemma copy_elem_spec (s : string) :
  (GoPath.slash ∉ (GoPath.copy_elem s).1)
  ∧ String.length (GoPath.copy_elem s).2 + length (GoPath.copy_elem s).1 = String.length s.
Proof.
  induction s as [|c s [IH1 IH2]]; simpl.
  - split; [apply not_elem_of_nil|done].
  - destruct (Ascii.eqb c GoPath.slash) eqn:E; simpl.
    + split; [apply not_elem_of_nil|lia].
    + destruct (GoPath.copy_elem s) as [e rest]. simpl in *. split; [|lia].
      apply not_elem_of_cons. split; [|done].
      intros <-. by rewrite Ascii.eqb_refl in E.
Qed.

Lemma backtrack_bounds (out : list ascii) (dotdot w0 : nat) :
  dotdot ≤ w0 →
  let w := GoPath.backtrack out dotdot w0 in
  w ≤ w0 ∧ (w = dotdot ∨ dotdot < w ∧ out !! w = Some GoPath.slash).
Proof.
  induction w0 as [|w0 IH]; intros Hle; simpl.
  - split; [done|]. left. lia.
  - destruct (bool_decide (dotdot < S w0)) eqn:Hd; simpl.
    + apply bool_decide_eq_true in Hd.
      destruct (bool_decide (out !! S w0 = Some GoPath.slash)) eqn:Hs; simpl.
      * apply bool_decide_eq_true in Hs. split; [done|]. by right.
      * destruct IH as [IH1 IH2]; [lia|]. split; [lia|done].
    + apply bool_decide_eq_false in Hd. split; [done|]. left. lia.
Qed.

Lemma clean_loop_inv (fuel : nat) (rooted : bool) (rest : string)
    (out : list ascii) (dotdot : nat) :
  clean_inv rooted out dotdot →
  ∃ dotdot', clean_inv rooted (GoPath.clean_loop fuel rooted rest out dotdot) dotdot'.
Proof.
  revert rest out dotdot. induction fuel as [|fuel IH]; intros rest out dotdot Hinv;
    [by exists dotdot|].
  destruct rest as [|c r1]; [by exists dotdot|].
  cbn [GoPath.clean_loop].
  destruct (Ascii.eqb c GoPath.slash) eqn:Hslash; [by apply IH|].
  destruct (Ascii.eqb c GoPath.dot && GoPath.sep_or_end r1); [by apply IH|].
  assert (Hnoslash : last out = Some GoPath.slash → out = [GoPath.slash] ∧ rooted = true).
  { intros Hl. pose proof (inv_last _ _ _ Hinv Hl) as ->. split; [done|].
    destruct rooted; [done|]. by destruct (inv_unrooted _ _ _ Hinv). }
  destruct (GoPath.dotdot_elem (String c r1)).
  - case_decide as Hdd.
    + (* backtrack *)
      apply IH.
      destruct (backtrack_bounds out dotdot (length out - 1)) as [Hw1 Hw2]; [lia|].
      set (w := GoPath.backtrack out dotdot (length out - 1)) in *.
      assert (Hlast : slash_last_only_root (take w out)).
      { destruct Hw2 as [->|[Hlt Hw]]; [apply Hinv|].
        intros Hl. exfalso. rewrite last_lookup, length_take_le in Hl by lia.
        apply lookup_take_Some in Hl as [Hl _].
        apply (inv_nods _ _ _ Hinv (pred w)); [done|].
        by replace (S (pred w)) with w by lia. }
      split.
      * apply no_double_slash_take, Hinv.
      * intros Hr. destruct (inv_rooted _ _ _ Hinv Hr) as [Hh Hd]. split; [|done].
        rewrite head_lookup in Hh |- *. rewrite lookup_take_lt by lia. done.
      * intros Hr. pose proof (inv_unrooted _ _ _ Hinv Hr) as Hh.
        rewrite head_lookup in Hh |- *. intros [Hl _]%lookup_take_Some. done.
      * done.
      * rewrite length_take_le by lia. lia.
      * rewrite take_take. replace (dotdot `min` w) with dotdot by lia. apply Hinv.
    + destruct rooted; simpl; [by apply IH|].
      apply IH.
      assert (Hout1 : ∃ out1, (if decide (0 < length out) then out ++ [GoPath.slash] else out) = out1
                ∧ no_double_slash out1 ∧ head out1 ≠ Some GoPath.slash
                ∧ (out1 = [] ∨ last out1 = Some GoPath.slash)).
      { eexists. split; [done|]. case_decide as Hlen.
        - split; [|split].
          + apply no_double_slash_snoc; [apply Hinv|]. by intros [_ ?]%Hnoslash.
          + pose proof (inv_unrooted _ _ _ Hinv eq_refl) as Hh.
            destruct out; [simpl in Hlen; lia|done].
          + right. apply last_snoc.
        - destruct out; [|simpl in Hlen; lia].
          split; [apply Hinv|]. split; [done|]. by left. }
      destruct Hout1 as (out1 & -> & Hnd & Hhd & Hl1).
      assert (Hdots : GoPath.slash ∉ [GoPath.dot; GoPath.dot]).
      { intros H. by repeat (apply elem_of_cons in H as [H|H]; [done|]); apply elem_of_nil in H. }
      split.
      * by apply no_double_slash_app.
      * done.
      * intros _. destruct out1; [done|]. done.
      * intros Hl. rewrite (last_app_cons out1 [GoPath.dot] GoPath.dot) in Hl.
        rewrite last_cons in Hl. simpl in Hl. done.
      * done.
      * rewrite take_ge by done.
        intros Hl. rewrite (last_app_cons out1 [GoPath.dot] GoPath.dot) in Hl.
        rewrite last_cons in Hl. simpl in Hl. done.
  - (* real path element *)
    pose proof (copy_elem_spec (String c r1)) as [He Hlen].
    assert (Hne : ∃ e', (GoPath.copy_elem (String c r1)).1 = c :: e').
    { simpl. rewrite Hslash. destruct (GoPath.copy_elem r1). by eexists. }
    destruct (GoPath.copy_elem (String c r1)) as [e rest']. simpl in He, Hlen, Hne.
    destruct Hne as [e' ->].
    apply IH.
    assert (Hc : c ≠ GoPath.slash) by (intros ->; by rewrite Ascii.eqb_refl in Hslash).
    assert (Hlast_e : ∀ l, last (l ++ c :: e') ≠ Some GoPath.slash).
    { intros l Hl. apply He. apply last_Some_elem_of.
      by rewrite last_app_cons in Hl. }
    destruct (rooted && negb (length out =? 1) || negb rooted && negb (length out =? 0)) eqn:Hadd.
    + assert (Hls : last out ≠ Some GoPath.slash).
      { intros [-> ->]%Hnoslash. done. }
      split.
      * apply no_double_slash_app; [|done]. apply no_double_slash_snoc; [apply Hinv|done].
      * intros Hr. destruct (inv_rooted _ _ _ Hinv Hr) as [Hh Hd]. split; [|done].
        destruct out; [done|]. done.
      * intros Hr. pose proof (inv_unrooted _ _ _ Hinv Hr) as Hh.
        destruct out; [by rewrite Hr in Hadd|]. done.
      * intros Hl. by apply Hlast_e in Hl.
      * pose proof (inv_dotdot _ _ _ Hinv). rewrite !length_app. lia.
      * pose proof (inv_dotdot _ _ _ Hinv).
        rewrite <- app_assoc, take_app_le by done. apply Hinv.
    + split.
      * apply no_double_slash_app; [apply Hinv|done].
      * intros Hr. destruct (inv_rooted _ _ _ Hinv Hr) as [Hh Hd]. split; [|done].
        destruct out; [done|]. done.
      * intros Hr. pose proof (inv_unrooted _ _ _ Hinv Hr) as Hh.
        destruct out; [|done]. simpl. by intros [= ->].
      * intros Hl. by apply Hlast_e in Hl.
      * pose proof (inv_dotdot _ _ _ Hinv). rewrite !length_app. lia.
      * pose proof (inv_dotdot _ _ _ Hinv).
        rewrite take_app_le by done. apply Hinv.
Qed.

(** Fuel up to the length of the input is never used up. *)
Lemma clean_loop_fuel (f1 f2 : nat) (rooted : bool) (rest : string)
    (out : list ascii) (dotdot : nat) :
  String.length rest ≤ f1 → String.length rest ≤ f2 →
  GoPath.clean_loop f1 rooted rest out dotdot = GoPath.clean_loop f2 rooted rest out dotdot.
Proof.
  revert f2 rest out dotdot.
  induction f1 as [|f1 IH]; intros f2 rest out dotdot H1 H2.
  { destruct rest; [|simpl in H1; lia]. by destruct f2. }
  destruct f2 as [|f2].
  { destruct rest; [done|simpl in H2; lia]. }
  destruct rest as [|c r1]; [done|]. cbn [GoPath.clean_loop]. simpl in H1, H2.
  destruct (Ascii.eqb c GoPath.slash) eqn:Hslash; [apply IH; lia|].
  destruct (Ascii.eqb c GoPath.dot && GoPath.sep_or_end r1); [apply IH; lia|].
  assert (Hr2 : String.length match r1 with
                              | String _ r2 => r2
                              | EmptyString => EmptyString
                              end ≤ String.length r1).
  { destruct r1; simpl; lia. }
  destruct (GoPath.dotdot_elem (String c r1)).
  - repeat case_match; apply IH; lia.
  - pose proof (copy_elem_spec (String c r1)) as [_ Hlen].
    assert (Hne : (GoPath.copy_elem (String c r1)).1 ≠ []).
    { simpl. rewrite Hslash. by destruct (GoPath.copy_elem r1). }
    destruct (GoPath.copy_elem (String c r1)) as [e rest']. simpl in Hlen, Hne.
    destruct e; [done|]. simpl in Hlen. apply IH; lia.
Qed.

Lemma no_double_slash_bytes (l : list ascii) :
  no_double_slash l → double_slash_bytes l = false.
Proof.
  induction l as [|a [|b l] IH]; intros H; [done..|].
  cbn [double_slash_bytes]. apply orb_false_intro.
  - destruct (Ascii.eqb a GoPath.slash) eqn:Ea; [|done].
    destruct (Ascii.eqb b GoPath.slash) eqn:Eb; [|done].
    apply Ascii.eqb_eq in Ea, Eb. subst. destruct (H 0); done.
  - apply IH. intros i H1 H2. apply (H (S i)); done.
Qed.

Lemma HasPrefix_slash (l : list ascii) :
  GoStrings.HasPrefix (string_of_list_ascii l) "/" = true ↔ head l = Some GoPath.slash.
Proof.
  unfold GoStrings.HasPrefix. destruct l as [|a l]; [done|].
  cbn [string_of_list_ascii String.prefix head].
  destruct (ascii_dec "/" a) as [<-|Hne].
  - by destruct (string_of_list_ascii l).
  - split; [done|]. intros [= Ha]. by destruct Hne.
Qed.

(** The result of [Clean] has no doubled separator, and is rooted when
    the path is. *)
Lemma Clean_spec (path : string) :
  double_slash (GoPath.Clean path) = false
  ∧ GoPath.Clean path ≠ EmptyString.
Proof.
  unfold GoPath.Clean. destruct path as [|c p1]; [done|].
  set (rooted := Ascii.eqb c GoPath.slash).
  assert (Hinv : ∃ dotdot,
    clean_inv rooted
      (if rooted
       then GoPath.clean_loop (String.length (String c p1)) true p1 [GoPath.slash] 1
       else GoPath.clean_loop (String.length (String c p1)) false (String c p1) [] 0)
      dotdot).
  { destruct rooted; apply clean_loop_inv; split; try done;
      try (by intros [|[|i]]). }
  destruct Hinv as [dotdot Hinv].
  match goal with |- context [match ?o with [] => _ | _ :: _ => _ end] =>
    destruct o as [|a out] eqn:Hout end; [done|].
  split.
  - unfold double_slash. rewrite list_ascii_of_string_of_list_ascii.
    apply no_double_slash_bytes, Hinv.
  - done.
Qed.

Lemma double_slash_cons (s : string) :
  GoStrings.HasPrefix s "/" = false → double_slash s = false →
  double_slash (String.append "/" s) = false.
Proof.
  unfold double_slash, GoStrings.HasPrefix. destruct s as [|a s]; [done|].
  cbn [String.prefix]. intros Hp Hd.
  change (list_ascii_of_string (String.append "/" (String a s)))
    with (GoPath.slash :: list_ascii_of_string (String a s)).
  cbn [list_ascii_of_string double_slash_bytes] in Hd |- *.
  rewrite Hd. destruct (Ascii.eqb a GoPath.slash) eqn:E; [|done].
  apply Ascii.eqb_eq in E. subst a.
  destruct (ascii_dec "/" GoPath.slash) as [_|Hne]; [|by destruct Hne].
  by destruct s.
Qed.

Lemma HasPrefix_double_slash (s : string) :
  double_slash s = false → GoStrings.HasPrefix s "//" = false.
Proof.
  unfold double_slash, GoStrings.HasPrefix. destruct s as [|a [|b s]]; [done| |].
  { intros _. cbn [String.prefix]. by destruct (ascii_dec "/" a). }
  cbn [String.prefix list_ascii_of_string double_slash_bytes].
  intros [H _]%orb_false_elim.
  destruct (ascii_dec "/" a) as [<-|]; [|done].
  destruct (ascii_dec "/" b) as [<-|]; [|done]. done.
Qed.

Lemma Join_spec (elem : list string) :
  double_slash (GoPath.Join elem) = false.
Proof.
  unfold GoPath.Join. case_match; [done|]. apply Clean_spec.
Qed.

(** C5.  [Finalize] on a file server whose service pointer can be
    dereferenced returns; the request path is then [path.Join] of the
    root's path, the service's path and the declared request path, with a
    slash put in front when the join does not start with one; it starts
    with exactly one slash and has no doubled separator.  The other fields
    are kept. *)
Theorem Finalize_request_path (Root : RootExpr.t) (σ : services)
    (f : FileServerExpr.t) (l : loc) (svc : ServiceExpr.t) :
  FileServerExpr.Service f = Some l → σ !! l = Some svc →
  ∃ f', Finalize Root σ f = Returns f'
    ∧ (let joined :=
         GoPath.Join [RootExpr.Path Root; ServiceExpr.Path svc;
                      FileServerExpr.RequestPath f] in
       FileServerExpr.RequestPath f' =
       if GoStrings.HasPrefix joined "/" then joined else String.append "/" joined)
    ∧ GoStrings.HasPrefix (FileServerExpr.RequestPath f') "/" = true
    ∧ GoStrings.HasPrefix (FileServerExpr.RequestPath f') "//" = false
    ∧ double_slash (FileServerExpr.RequestPath f') = false
    ∧ FileServerExpr.Service f' = FileServerExpr.Service f
    ∧ FileServerExpr.FilePath f' = FileServerExpr.FilePath f
    ∧ FileServerExpr.Description f' = FileServerExpr.Description f.
Proof.
  intros Hs Hl. unfold Finalize, deref. rewrite Hs, Hl. cbn [obind].
  eexists. split; [done|]. cbn [FileServerExpr.RequestPath FileServerExpr.Service
    FileServerExpr.FilePath FileServerExpr.Description].
  set (joined := GoPath.Join _).
  pose proof (Join_spec [RootExpr.Path Root; ServiceExpr.Path svc;
                         FileServerExpr.RequestPath f]) as Hj.
  fold joined in Hj.
  assert (Hd : double_slash
            (if negb (GoStrings.HasPrefix joined "/")
             then String.append "/" joined else joined) = false).
  { destruct (GoStrings.HasPrefix joined "/") eqn:Hp; [done|].
    by apply double_slash_cons. }
  split; [by destruct (GoStrings.HasPrefix joined "/")|].
  split; [|split; [by apply HasPrefix_double_slash|done]].
  destruct (GoStrings.HasPrefix joined "/") eqn:Hp; [done|].
  by destruct joined.
Qed.

Lemma Finalize_request_path_witness :
  ∃ f', Finalize (RootExpr.mk None "/api" [] [] [1%positive] None None)
          {[ 1%positive := ServiceExpr.mk "files" "v1" "" [] [] ]}
          (FileServerExpr.mk (Some 1%positive) "" "public" "assets") = Returns f'
        ∧ FileServerExpr.RequestPath f' = "/api/v1/assets".
Proof.
  destruct (Finalize_request_path
              (RootExpr.mk None "/api" [] [] [1%positive] None None)
              {[ 1%positive := ServiceExpr.mk "files" "v1" "" [] [] ]}
              (FileServerExpr.mk (Some 1%positive) "" "public" "assets")
              1%positive (ServiceExpr.mk "files" "v1" "" [] []))
    as (f' & Hf & Hp & _); [reflexivity..|].
  exists f'. split; [exact Hf|]. rewrite Hp. reflexivity.
Defined.

(** Without a service to dereference [Finalize] panics. *)
Lemma Finalize_nil_service (Root : RootExpr.t) (σ : services) (f : FileServerExpr.t) :
  FileServerExpr.Service f = None → Finalize Root σ f = Panics.
Proof. intros H. unfold Finalize, deref. by rewrite H. Qed.

(** ** Schemes *)

Section Schemes.

Context (url_Parse : string → url.parse_result).

Lemma collect_scheme_Panics (servers : list design.ServerExpr) :
  foldl (collect_scheme url_Parse) Panics servers = Panics.
Proof. by induction servers. Qed.

(** The loop leaves the schemes alone while the URLs parse. *)
Lemma collect_scheme_parsed (servers : list design.ServerExpr) (schemes : gmap string bool) :
  (∀ s, s ∈ servers → (url_Parse (design.URL s)).2 = None) →
  foldl (collect_scheme url_Parse) (Returns schemes) servers = Returns schemes.
Proof.
  induction servers as [|s servers IH]; intros Hok; [done|].
  cbn [foldl]. unfold collect_scheme at 2. cbn [obind].
  assert (Hs : (url_Parse (design.URL s)).2 = None) by (apply Hok, elem_of_cons; by left).
  destruct (url_Parse (design.URL s)) as [u err]. simpl in Hs. subst err.
  apply IH. intros s' Hs'. apply Hok, elem_of_cons. by right.
Qed.

(** The first URL that fails to parse makes the loop read through [nil]. *)
Lemma collect_scheme_failed (servers : list design.ServerExpr)
    (acc : outcome (gmap string bool)) :
  url.nil_on_error url_Parse →
  (∃ s, s ∈ servers ∧ (url_Parse (design.URL s)).2 ≠ None) →
  foldl (collect_scheme url_Parse) acc servers = Panics.
Proof.
  intros Hnil. revert acc.
  induction servers as [|s servers IH]; intros acc (s' & Hin & Herr).
  { by apply elem_of_nil in Hin. }
  cbn [foldl]. destruct acc as [schemes|]; [|apply collect_scheme_Panics].
  unfold collect_scheme at 2. cbn [obind].
  apply elem_of_cons in Hin as [->|Hin].
  - destruct (url_Parse (design.URL s)) as [u [e|]] eqn:Hp; [|done].
    rewrite (Hnil _ _ _ Hp). apply collect_scheme_Panics.
  - apply IH. eauto.
Qed.

Lemma parse_all_or_fail (servers : list design.ServerExpr) :
  (∀ s, s ∈ servers → (url_Parse (design.URL s)).2 = None)
  ∨ ∃ s, s ∈ servers ∧ (url_Parse (design.URL s)).2 ≠ None.
Proof.
  induction servers as [|s servers IH].
  { left. intros s Hs. by apply elem_of_nil in Hs. }
  destruct (url_Parse (design.URL s)).2 as [e|] eqn:He.
  { right. exists s. split; [apply elem_of_cons; by left|]. by rewrite He. }
  destruct IH as [IH|(s' & Hs' & Herr)].
  - left. intros s' [->|Hs']%elem_of_cons; [done|]. by apply IH.
  - right. exists s'. split; [|done]. apply elem_of_cons. by right.
Qed.

Lemma servers_parse_or_fail (r : RootExpr.t) :
  servers_parse url_Parse r
  ∨ ∃ d s, RootExpr.Design r = Some d ∧ s ∈ design.Servers (design.API d)
           ∧ (url_Parse (design.URL s)).2 ≠ None.
Proof.
  unfold servers_parse. destruct (RootExpr.Design r) as [d|]; [|by left].
  destruct (parse_all_or_fail (design.Servers (design.API d))) as [Hok|(s & Hs & Herr)].
  - left. intros d' s [= <-]. apply Hok.
  - right. by exists d, s.
Qed.

(** Whatever the loop collects, the slice made of it is sorted and has
    no duplicates. *)
Lemma Schemes_sorted (r : RootExpr.t) (ss : list string) :
  Schemes url_Parse r = Returns ss → Sorted String.le ss ∧ NoDup ss.
Proof.
  unfold Schemes. destruct (RootExpr.Design r) as [d|].
  2:{ intros [= <-]. split; constructor. }
  destruct (foldl _ _ _) as [schemes|]; [|done]. cbn [obind].
  case_decide.
  { intros [= <-]. split; constructor. }
  intros [= <-]. rewrite fill_indexed_map, map_id. unfold sort_Strings. split.
  - apply Sorted_merge_sort. apply _.
  - rewrite merge_sort_Permutation. apply NoDup_fst_map_to_list.
Qed.

Lemma Schemes_servers_parse (r : RootExpr.t) :
  servers_parse url_Parse r → Schemes url_Parse r = Returns [].
Proof.
  intros Hok. unfold Schemes. destruct (RootExpr.Design r) as [d|] eqn:Hd; [|done].
  rewrite collect_scheme_parsed by (intros s Hs; by eapply Hok).
  cbn [obind]. by rewrite decide_True by apply map_size_empty.
Qed.

(** C2.  The claim has [Schemes] collect the scheme of a server whose
    URL fails to parse and return the collected schemes; the documentation
    of [Schemes] has it return the schemes used by the servers.  With a
    parser that, like [url.Parse], returns a [nil] URL along with an
    error, the code does neither for a root with a server whose URL fails
    to parse: the test [err != nil] sends exactly that server to the read
    of [u.Scheme], the read goes through [nil] and [Schemes] panics.  So
    it returns no slice at all, and what the claim says of it is false. *)
Theorem Schemes_failed_url_panics (r : RootExpr.t) (d : design.RootExpr)
    (s : design.ServerExpr) :
  url.nil_on_error url_Parse →
  RootExpr.Design r = Some d →
  s ∈ design.Servers (design.API d) →
  (url_Parse (design.URL s)).2 ≠ None →
  collect_scheme url_Parse (Returns ∅) s = Panics
  ∧ Schemes url_Parse r = Panics
  ∧ ¬ Schemes_collects_failed url_Parse r.
Proof.
  intros Hnil Hd Hs Herr.
  assert (Hpanics : Schemes url_Parse r = Panics).
  { unfold Schemes. rewrite Hd. rewrite collect_scheme_failed; [done..|]. eauto. }
  split; [|split].
  - unfold collect_scheme. cbn [obind].
    destruct (url_Parse (design.URL s)) as [u [e|]] eqn:Hp; [|done].
    by rewrite (Hnil _ _ _ Hp).
  - done.
  - intros (ss & Hss & _). congruence.
Qed.

(** C9.  With a parser that, like [url.Parse], returns a [nil] URL along
    with an error: the loop of [Schemes] leaves the schemes alone for a
    URL that parses and reads the scheme through [nil] for one that does
    not.  So [Schemes] returns [nil] when every server URL parses, panics
    as soon as one does not, and never returns a non-empty slice. *)
Theorem Schemes_nil_dereference (r : RootExpr.t) :
  url.nil_on_error url_Parse →
  (∀ schemes s,
     collect_scheme url_Parse (Returns schemes) s =
     match (url_Parse (design.URL s)).2 with
     | None => Returns schemes
     | Some _ => Panics
     end)
  ∧ (servers_parse url_Parse r → Schemes url_Parse r = Returns [])
  ∧ (¬ servers_parse url_Parse r → Schemes url_Parse r = Panics)
  ∧ (∀ ss, Schemes url_Parse r = Returns ss → ss = []).
Proof.
  intros Hnil.
  assert (Hfail : ¬ servers_parse url_Parse r → Schemes url_Parse r = Panics).
  { intros Hnot. destruct (servers_parse_or_fail r) as [Hok|(d & s & Hd & Hs & Herr)]; [done|].
    unfold Schemes. rewrite Hd. rewrite collect_scheme_failed; [done..|]. eauto. }
  split; [|split; [|split]].
  - intros schemes s. unfold collect_scheme. cbn [obind].
    destruct (url_Parse (design.URL s)) as [u [e|]] eqn:Hp; simpl.
    + by rewrite (Hnil _ _ _ Hp).
    + done.
  - apply Schemes_servers_parse.
  - done.
  - intros ss Hss.
    destruct (servers_parse_or_fail r) as [Hok|(d & s & Hd & Hs & Herr)].
    + apply Schemes_servers_parse in Hok. congruence.
    + rewrite Hfail in Hss; [done|]. intros Hok. by apply Herr, (Hok d).
Qed.

End Schemes.

Lemma Parse_first_colon_nil_on_error : url.nil_on_error url.Parse_first_colon.
Proof.
  intros rawURL u e. unfold url.Parse_first_colon.
  destruct rawURL as [|c rest]; [done|].
  destruct (Ascii.eqb c ":"); congruence.
Qed.

Lemma root_parsed_servers_parse : servers_parse url.Parse_first_colon root_parsed.
Proof.
  intros d s [= <-] Hs. simpl in Hs.
  repeat (apply elem_of_cons in Hs as [->|Hs]; [reflexivity|]).
  by apply elem_of_nil in Hs.
Qed.

Lemma root_failed_servers_fail : ¬ servers_parse url.Parse_first_colon root_failed.
Proof.
  intros H.
  specialize (H _ (design.Build_ServerExpr ":8080") eq_refl).
  discriminate H. simpl. apply elem_of_cons. right. apply elem_of_cons. by left.
Qed.

Lemma Schemes_failed_url_panics_witness :
  collect_scheme url.Parse_first_colon (Returns ∅) (design.Build_ServerExpr ":8080") = Panics
  ∧ Schemes url.Parse_first_colon root_failed = Panics
  ∧ ¬ Schemes_collects_failed url.Parse_first_colon root_failed.
Proof.
  apply (Schemes_failed_url_panics url.Parse_first_colon root_failed
           {| design.API :=
                {| design.Servers :=
                     map design.Build_ServerExpr ["https://goa.design"; ":8080"] |} |}
           (design.Build_ServerExpr ":8080")).
  - exact Parse_first_colon_nil_on_error.
  - reflexivity.
  - simpl. apply elem_of_cons. right. apply elem_of_cons. by left.
  - discriminate.
Defined.

Lemma Schemes_nil_dereference_witness :
  Schemes url.Parse_first_colon root_parsed = Returns []
  ∧ Schemes url.Parse_first_colon root_failed = Panics.
Proof.
  split.
  - destruct (Schemes_nil_dereference url.Parse_first_colon root_parsed
                Parse_first_colon_nil_on_error) as (_ & H & _).
    apply H, root_parsed_servers_parse.
  - destruct (Schemes_nil_dereference url.Parse_first_colon root_failed
                Parse_first_colon_nil_on_error) as (_ & _ & H & _).
    apply H, root_failed_servers_fail.
Defined.

(** ** Headers and Params *)

Lemma Headers_set (r : RootExpr.t) (h : design.attributes) (l : loc) :
  RootExpr.headers r = Some l → Headers r h = (Some l, (r, h)).
Proof. intros H. unfold Headers. rewrite H. simpl. by rewrite ?H. Qed.

Lemma Params_set (r : RootExpr.t) (h : design.attributes) (l : loc) :
  RootExpr.params r = Some l → Params r h = (Some l, (r, h)).
Proof. intros H. unfold Params. rewrite H. simpl. by rewrite ?H. Qed.

Lemma Headers_unset (r : RootExpr.t) (h : design.attributes) :
  RootExpr.headers r = None →
  Headers r h = (Some (fresh (dom h)),
                 (RootExpr.set_headers r (Some (fresh (dom h))),
                  <[fresh (dom h) := {| design.Type_ := design.Object [] |}]> h)).
Proof. intros H. unfold Headers. rewrite H. simpl. by rewrite ?H. Qed.

Lemma Params_unset (r : RootExpr.t) (h : design.attributes) :
  RootExpr.params r = None →
  Params r h = (Some (fresh (dom h)),
                (RootExpr.set_params r (Some (fresh (dom h))),
                 <[fresh (dom h) := {| design.Type_ := design.Object [] |}]> h)).
Proof. intros H. unfold Params. rewrite H. simpl. by rewrite ?H. Qed.

Lemma fresh_unallocated (h : design.attributes) : h !! fresh (dom h) = None.
Proof. apply not_elem_of_dom, is_fresh. Qed.

Lemma attach_lookup (h : design.attributes) (p : loc) (fields : list (string * loc))
    (name : string) (child : loc) :
  h !! p = Some {| design.Type_ := design.Object fields |} →
  design.attach h p name child !! p
  = Some {| design.Type_ := design.Object (fields ++ [(name, child)]) |}.
Proof. intros H. unfold design.attach. rewrite H. apply lookup_insert_eq. Qed.

(** C6.  The first call of [Headers] (of [Params]) on a root whose field
    is unset allocates an empty object at an address that was free and
    stores it in the root; every call returns a non-nil pointer; a call on
    the root left by an earlier call returns the same pointer and changes
    neither the root nor the heap, whatever was done to the heap in
    between; so an attribute attached through the first pointer is read
    through the second. *)
Theorem Headers_Params_lazy (r : RootExpr.t) (h h' : design.attributes)
    (name : string) (child : loc) :
  (RootExpr.headers r = None →
   ∃ l, Headers r h = (Some l, (RootExpr.set_headers r (Some l),
                                <[l := {| design.Type_ := design.Object [] |}]> h))
        ∧ h !! l = None)
  ∧ (RootExpr.params r = None →
     ∃ l, Params r h = (Some l, (RootExpr.set_params r (Some l),
                                 <[l := {| design.Type_ := design.Object [] |}]> h))
          ∧ h !! l = None)
  ∧ (∃ l, (Headers r h).1 = Some l
          ∧ Headers (Headers r h).2.1 h' = (Some l, ((Headers r h).2.1, h'))
          ∧ (RootExpr.headers r = None →
             design.attach (Headers r h).2.2 l name child !! l
             = Some {| design.Type_ := design.Object [(name, child)] |}
             ∧ Headers (Headers r h).2.1 (design.attach (Headers r h).2.2 l name child)
               = (Some l, ((Headers r h).2.1, design.attach (Headers r h).2.2 l name child))))
  ∧ (∃ l, (Params r h).1 = Some l
          ∧ Params (Params r h).2.1 h' = (Some l, ((Params r h).2.1, h'))
          ∧ (RootExpr.params r = None →
             design.attach (Params r h).2.2 l name child !! l
             = Some {| design.Type_ := design.Object [(name, child)] |}
             ∧ Params (Params r h).2.1 (design.attach (Params r h).2.2 l name child)
               = (Some l, ((Params r h).2.1, design.attach (Params r h).2.2 l name child)))).
Proof.
  split; [|split; [|split]].
  - intros H. eexists. split; [by apply Headers_unset|apply fresh_unallocated].
  - intros H. eexists. split; [by apply Params_unset|apply fresh_unallocated].
  - destruct (RootExpr.headers r) as [l|] eqn:Hh.
    + exists l. rewrite (Headers_set r h l Hh). cbn [fst snd].
      split; [done|]. split; [by apply Headers_set|done].
    + exists (fresh (dom h)). rewrite (Headers_unset r h Hh). cbn [fst snd].
      split; [done|]. split; [by apply Headers_set|]. intros _.
      split; [|by apply Headers_set].
      apply (attach_lookup _ _ []), lookup_insert_eq.
  - destruct (RootExpr.params r) as [l|] eqn:Hh.
    + exists l. rewrite (Params_set r h l Hh). cbn [fst snd].
      split; [done|]. split; [by apply Params_set|done].
    + exists (fresh (dom h)). rewrite (Params_unset r h Hh). cbn [fst snd].
      split; [done|]. split; [by apply Params_set|]. intros _.
      split; [|by apply Params_set].
      apply (attach_lookup _ _ []), lookup_insert_eq.
Qed.

Lemma Headers_Params_lazy_witness :
  ∃ l, (Headers (root_with_servers []) ∅).1 = Some l
       ∧ Headers (Headers (root_with_servers []) ∅).2.1
           (design.attach (Headers (root_with_servers []) ∅).2.2 l "X-Request-Id" 7%positive)
         = (Some l, ((Headers (root_with_servers []) ∅).2.1,
                     design.attach (Headers (root_with_servers []) ∅).2.2 l "X-Request-Id" 7%positive))
       ∧ design.attach (Headers (root_with_servers []) ∅).2.2 l "X-Request-Id" 7%positive !! l
         = Some {| design.Type_ := design.Object [("X-Request-Id", 7%positive)] |}.
Proof.
  destruct (Headers_Params_lazy (root_with_servers []) ∅ ∅ "X-Request-Id" 7%positive)
    as (_ & _ & (l & Hl & _ & Hattach) & _).
  destruct Hattach as [Hread Hsame]; [reflexivity|].
  exists l. split; [exact Hl|]. split; [exact Hsame|exact Hread].
Defined.

(** ** MappedHeaders and MappedParams *)

(** C10.  [MappedHeaders] and [MappedParams] pass the field of the root
    as it is to [NewMappedAttributeExpr] and leave the root and the heap
    as they are.  On a root whose field is unset they pass [nil], where
    [Headers] and [Params] return an allocated object, and the field is
    still unset afterwards; after [Headers] or [Params] they pass the
    pointer that call returned. *)
Theorem Mapped_without_initialization {M : Type}
    (NewMappedAttributeExpr : option loc → design.attributes → M)
    (r : RootExpr.t) (h : design.attributes) :
  (MappedHeaders NewMappedAttributeExpr r h
   = (NewMappedAttributeExpr (RootExpr.headers r) h, (r, h)))
  ∧ (MappedParams NewMappedAttributeExpr r h
     = (NewMappedAttributeExpr (RootExpr.params r) h, (r, h)))
  ∧ (RootExpr.headers r = None →
     (MappedHeaders NewMappedAttributeExpr r h).1 = NewMappedAttributeExpr None h
     ∧ RootExpr.headers (MappedHeaders NewMappedAttributeExpr r h).2.1 = None
     ∧ (Headers r h).1 ≠ None)
  ∧ (RootExpr.params r = None →
     (MappedParams NewMappedAttributeExpr r h).1 = NewMappedAttributeExpr None h
     ∧ RootExpr.params (MappedParams NewMappedAttributeExpr r h).2.1 = None
     ∧ (Params r h).1 ≠ None)
  ∧ (MappedHeaders NewMappedAttributeExpr (Headers r h).2.1 (Headers r h).2.2).1
    = NewMappedAttributeExpr (Headers r h).1 (Headers r h).2.2
  ∧ (MappedParams NewMappedAttributeExpr (Params r h).2.1 (Params r h).2.2).1
    = NewMappedAttributeExpr (Params r h).1 (Params r h).2.2.
Proof.
  split; [done|]. split; [done|]. split; [|split; [|split]].
  - intros H. unfold MappedHeaders. cbn [fst snd]. rewrite H.
    split; [done|]. split; [done|]. by rewrite Headers_unset.
  - intros H. unfold MappedParams. cbn [fst snd]. rewrite H.
    split; [done|]. split; [done|]. by rewrite Params_unset.
  - unfold MappedHeaders. cbn [fst]. f_equal.
    destruct (RootExpr.headers r) as [l|] eqn:Hh.
    + by rewrite (Headers_set r h l Hh).
    + by rewrite (Headers_unset r h Hh).
  - unfold MappedParams. cbn [fst]. f_equal.
    destruct (RootExpr.params r) as [l|] eqn:Hh.
    + by rewrite (Params_set r h l Hh).
    + by rewrite (Params_unset r h Hh).
Qed.

Lemma Mapped_without_initialization_witness :
  (MappedHeaders (λ att _, att) (root_with_servers []) ∅).1 = None
  ∧ (MappedParams (λ att _, att) (root_with_servers []) ∅).1 = None
  ∧ (Headers (root_with_servers []) ∅).1 ≠ None
  ∧ (Params (root_with_servers []) ∅).1 ≠ None.
Proof.
  destruct (Mapped_without_initialization (λ att _, att) (root_with_servers []) ∅)
    as (_ & _ & Hh & Hp & _).
  destruct Hh as (Hh1 & _ & Hh2); [reflexivity|].
  destruct Hp as (Hp1 & _ & Hp2); [reflexivity|].
  done.
Defined.

(** ** The stable sort only swaps *)

Section swaps.

Context {A : Type} (less : A → A → bool).

(** [P] is a property of slices that every [Swap] keeps. *)
Context (P : list A → Prop).
Context (P_Swap : ∀ data i j, P data → P (GoSort.Swap data i j)).

Lemma foldl_keeps {B} (f : list A → B → list A) (data : list A) (l : list B) :
  (∀ d x, P d → P (f d x)) → P data → P (foldl f data l).
Proof. intros Hf. revert data. induction l; simpl; eauto. Qed.

Lemma insert_down_keeps (data : list A) (a j : nat) :
  P data → P (GoSort.insert_down less data a j).
Proof.
  revert data. induction j as [|j IH]; intros data H; simpl; [done|].
  destruct (_ && _); eauto.
Qed.

Lemma insertionSort_keeps (data : list A) (a b : nat) :
  P data → P (GoSort.insertionSort less data a b).
Proof. apply foldl_keeps. intros. by apply insert_down_keeps. Qed.

Lemma swapRange_keeps (data : list A) (a b n : nat) :
  P data → P (GoSort.swapRange data a b n).
Proof. apply foldl_keeps. eauto. Qed.

Lemma rotate_loop_keeps (data : list A) (m i j : nat) :
  P data → P (GoSort.rotate_loop data m i j).
Proof.
  funelim (GoSort.rotate_loop data m i j); intros HP; try done.
  - by apply swapRange_keeps.
  - apply H. by apply swapRange_keeps.
  - apply H. by apply swapRange_keeps.
Qed.

Lemma rotate_keeps (data : list A) (a m b : nat) :
  P data → P (GoSort.rotate data a m b).
Proof. apply rotate_loop_keeps. Qed.

Lemma symMerge_keeps (data : list A) (a m b : nat) :
  P data → P (GoSort.symMerge less data a m b).
Proof.
  funelim (GoSort.symMerge less data a m b); intros HP.
  - apply foldl_keeps; eauto.
  - apply foldl_keeps; eauto.
  - clear Heqcall Heq Heq0.
    assert (Hrot : ∀ {C} (c : {C} + {¬ C}) a' m' b',
      P (if c then GoSort.rotate data a' m' b' else data)).
    { intros ? [|] ? ? ?; [by apply rotate_keeps|done]. }
    match goal with |- P (match ?d with left _ => _ | right _ => _ end) =>
      destruct d as [Hc2|?] end.
    + apply H0; [exact Hc2|].
      match goal with |- P (match ?d with left _ => _ | right _ => _ end) =>
        destruct d as [Hc1|?] end; [apply H; [exact Hc1|]|]; apply Hrot.
    + match goal with |- P (match ?d with left _ => _ | right _ => _ end) =>
        destruct d as [Hc1|?] end; [apply H; [exact Hc1|]|]; apply Hrot.
Qed.

Lemma insertion_blocks_keeps (data : list A) (a b n : nat) :
  P data → P (GoSort.insertion_blocks less data a b n).1.
Proof.
  funelim (GoSort.insertion_blocks less data a b n); intros HP; [|done].
  apply H. by apply insertionSort_keeps.
Qed.

Lemma merge_blocks_keeps (data : list A) (a b n blockSize : nat) :
  P data → P (GoSort.merge_blocks less data a b n blockSize).1.
Proof.
  funelim (GoSort.merge_blocks less data a b n blockSize); intros HP; [done| |done].
  apply H. by apply symMerge_keeps.
Qed.

Lemma merge_passes_keeps (data : list A) (n blockSize : nat) :
  P data → P (GoSort.merge_passes less data n blockSize).
Proof.
  funelim (GoSort.merge_passes less data n blockSize); intros HP; [done| |done].
  match goal with |- context [GoSort.merge_blocks less data 0 ?b n ?bs] =>
    pose proof (merge_blocks_keeps data 0 b n bs HP) as Hb;
    destruct (GoSort.merge_blocks less data 0 b n bs) as [data1 a'] end.
  apply H. simpl in Hb.
  match goal with |- P (match ?d with left _ => _ | right _ => _ end) =>
    destruct d end; [|done].
  by apply symMerge_keeps.
Qed.

Lemma stable_keeps (data : list A) : P data → P (GoSort.stable less data).
Proof.
  intros HP. unfold GoSort.stable.
  pose proof (insertion_blocks_keeps data 0 20 (length data) HP) as Hb.
  destruct (GoSort.insertion_blocks less data 0 20 (length data)) as [data1 a].
  by apply merge_passes_keeps, insertionSort_keeps.
Qed.

End swaps.

Lemma Swap_Permutation {A} (data : list A) (i j : nat) : GoSort.Swap data i j ≡ₚ data.
Proof.
  unfold GoSort.Swap.
  destruct (data !! i) as [x|] eqn:Hi; [|done].
  destruct (data !! j) as [y|] eqn:Hj; [|done].
  by apply Permutation_insert_swap.
Qed.

(** [sort.SliceStable] rearranges the slice, whatever the comparator. *)
Lemma SliceStable_Permutation {A} (x : list A) (less : A → A → bool) :
  GoSort.SliceStable x less ≡ₚ x.
Proof.
  unfold GoSort.SliceStable. apply (stable_keeps less (λ d, d ≡ₚ x)); [|done].
  intros data i j H. by rewrite Swap_Permutation.
Qed.

(** Up to 20 elements the sort is one insertion sort. *)
Lemma SliceStable_short {A} (x : list A) (less : A → A → bool) :
  length x ≤ 20 →
  GoSort.SliceStable x less = GoSort.insertionSort less x 0 (length x).
Proof.
  intros Hlen. unfold GoSort.SliceStable, GoSort.stable.
  destruct (decide (length x = 20)) as [H20|Hne].
  - rewrite H20. simp insertion_blocks. simpl. simp insertion_blocks. simpl.
    simp merge_passes. simpl.
    unfold GoSort.insertionSort at 1. simpl. done.
  - rewrite GoSort.insertion_blocks_equation_1.
    destruct (decide (20 ≤ length x)); [lia|]. simpl.
    rewrite GoSort.merge_passes_equation_2.
    by destruct (decide (20 < length x)); [lia|].
Qed.

(** ** WalkSets *)

Lemma append_loop {A B} (f : A → B) (acc : list B) (l : list A) :
  foldl (λ acc x, acc ++ [f x]) acc l = acc ++ map f l.
Proof.
  revert acc. induction l as [|x l IH]; intros acc; simpl.
  - by rewrite app_nil_r.
  - by rewrite IH, <- app_assoc.
Qed.

(** The loop over the sorted services, from any round on. *)
Lemma walk_loop (σ : services) (ps : list loc)
    (done_ todo endpoints servers : ExpressionSet) :
  length todo = length ps →
  (∀ p, p ∈ ps → is_Some (σ !! p)) →
  foldl (walk_round σ)
    (Returns (length done_, WalkState (done_ ++ todo) endpoints servers)) ps
  = Returns (length done_ + length ps,
             WalkState (done_ ++ map ServiceE ps)
               (endpoints ++ flat_map (service_endpoints σ) ps)
               (servers ++ flat_map (service_servers σ) ps)).
Proof.
  revert done_ todo endpoints servers.
  induction ps as [|p ps IH]; intros done_ todo endpoints servers Hlen Hok.
  - destruct todo; [|done]. simpl. by rewrite Nat.add_0_r, !app_nil_r.
  - destruct todo as [|t todo]; [done|].
    destruct (Hok p) as [svc Hsvc]; [apply elem_of_cons; by left|].
    cbn [foldl]. unfold walk_round at 2. cbn [obind ws_services ws_endpoints ws_servers deref].
    rewrite Hsvc. cbn [obind]. rewrite !append_loop.
    assert (Hins : <[length done_ := ServiceE p]> (done_ ++ t :: todo)
                   = (done_ ++ [ServiceE p]) ++ todo).
    { rewrite insert_app_r_alt by lia. rewrite Nat.sub_diag. simpl.
      by rewrite <- app_assoc. }
    rewrite Hins.
    replace (S (length done_)) with (length (done_ ++ [ServiceE p]))
      by (rewrite length_app; simpl; lia).
    rewrite IH.
    + rewrite length_app. simpl. unfold service_endpoints at 2, service_servers at 2.
      rewrite Hsvc, <- !app_assoc. simpl. do 2 f_equal. lia.
    + simpl in Hlen. lia.
    + intros p' Hp'. apply Hok, elem_of_cons. by right.
Qed.

(** C1.  The services child, other, parent, declared in this order: the
    child names the parent, the two are not neighbours, and the sort
    leaves the slice as it is.  The first set given to the callback has
    the child before its parent. *)
Theorem WalkSets_child_before_parent :
  ∃ r' endpoints servers,
    WalkSets family (root_with_services [1; 2; 3]%positive) record_walk []
    = Returns (r', [map ServiceE [1; 2; 3]%positive; endpoints; servers])
    ∧ RootExpr.HTTPServices r' = [1; 2; 3]%positive
    ∧ ¬ parents_first family [1; 2; 3]%positive.
Proof.
  eexists _, _, _. split; [vm_compute; reflexivity|]. split; [reflexivity|].
  intros H.
  specialize (H 0 2 1%positive 3%positive
                (ServiceExpr.mk "child" "/child" "parent" [] [])
                (ServiceExpr.mk "parent" "/parent" "" [] [])
                eq_refl eq_refl eq_refl eq_refl eq_refl).
  assert (2 < 0) by (apply H; discriminate). lia.
Qed.

(** A parent declared right after its child is moved before it. *)
Lemma WalkSets_neighbours_swapped :
  ∃ r',
    WalkSets family (root_with_services [2; 1; 3]%positive) record_walk []
    = Returns (r', [map ServiceE [2; 3; 1]%positive; []; []])
    ∧ RootExpr.HTTPServices r' = [2; 3; 1]%positive.
Proof. eexists. split; [vm_compute; reflexivity|reflexivity]. Qed.

(** * Properties of the rest of the code *)

(** ** Service and ServiceFor *)

Lemma service_names_cons (σ : services) (p : loc) (ps : list loc) (svc : ServiceExpr.t) :
  σ !! p = Some svc →
  service_names σ (p :: ps) = ServiceExpr.Name svc :: service_names σ ps.
Proof. intros H. unfold service_names. simpl. by rewrite H. Qed.

Lemma service_names_app (σ : services) (ps qs : list loc) :
  service_names σ (ps ++ qs) = service_names σ ps ++ service_names σ qs.
Proof. apply omap_app. Qed.

Lemma services_allocated_cons (σ : services) (p : loc) (ps : list loc) :
  services_allocated σ (p :: ps) ↔ is_Some (σ !! p) ∧ services_allocated σ ps.
Proof.
  unfold services_allocated. split.
  - intros H. split; [apply H, elem_of_cons; by left|].
    intros q Hq. apply H, elem_of_cons. by right.
  - intros [Hp H] q [->|Hq]%elem_of_cons; [done|by apply H].
Qed.

(** What the loop of [Service] returns on allocated services. *)
Lemma Service_loop_spec (σ : services) (ps : list loc) (name : string) :
  services_allocated σ ps →
  (Service_loop σ ps name = Returns None ∧ (name ∉ service_names σ ps))
  ∨ ∃ l1 p l2 svc,
      ps = l1 ++ p :: l2 ∧ σ !! p = Some svc ∧ ServiceExpr.Name svc = name
      ∧ (name ∉ service_names σ l1)
      ∧ Service_loop σ ps name = Returns (Some p).
Proof.
  induction ps as [|q ps IH]; intros Hall.
  { left. split; [done|]. apply not_elem_of_nil. }
  apply services_allocated_cons in Hall as [[svc Hq] Hall].
  cbn [Service_loop deref]. rewrite Hq. cbn [obind].
  destruct (String.eqb (ServiceExpr.Name svc) name) eqn:E.
  - apply String.eqb_eq in E. right. exists [], q, ps, svc.
    split; [done|]. split; [done|]. split; [done|]. split; [apply not_elem_of_nil|done].
  - apply String.eqb_neq in E.
    destruct (IH Hall) as [[Hnone Hnot]|(l1 & p & l2 & svc' & -> & Hp & Hn & Hl1 & Hsome)].
    + left. split; [done|]. rewrite (service_names_cons _ _ _ _ Hq).
      apply not_elem_of_cons. split; [congruence|done].
    + right. exists (q :: l1), p, l2, svc'. split; [done|]. split; [done|].
      split; [done|]. split; [|done].
      rewrite (service_names_cons _ _ _ _ Hq). apply not_elem_of_cons.
      split; [congruence|done].
Qed.

(** X1.  On a root whose services are allocated, [Service] returns: the
    first service of the slice that has the name, and [nil] exactly when
    no service has it. *)
Theorem Service_first_match (σ : services) (r : RootExpr.t) (name : string) :
  services_allocated σ (RootExpr.HTTPServices r) →
  ∃ found, Service σ r name = Returns found
    ∧ (found = None ↔ (name ∉ service_names σ (RootExpr.HTTPServices r)))
    ∧ ∀ p, found = Some p →
        ∃ l1 l2 svc,
          RootExpr.HTTPServices r = l1 ++ p :: l2
          ∧ σ !! p = Some svc ∧ ServiceExpr.Name svc = name
          ∧ (name ∉ service_names σ l1).
Proof.
  intros Hall. unfold Service.
  destruct (Service_loop_spec σ (RootExpr.HTTPServices r) name Hall)
    as [[Hnone Hnot]|(l1 & p & l2 & svc & Hps & Hp & Hn & Hl1 & Hsome)].
  - exists None. split; [done|]. split; [done|]. by intros p.
  - exists (Some p). split; [done|]. split.
    + split; [done|]. intros Hnot. destruct Hnot.
      rewrite Hps, service_names_app, (service_names_cons _ _ _ _ Hp), Hn.
      apply elem_of_app. right. apply elem_of_cons. by left.
    + intros p' [= <-]. by exists l1, l2, svc.
Qed.

Lemma family_allocated (ps : list loc) :
  ps ⊆ [1; 2; 3]%positive → services_allocated family ps.
Proof.
  intros Hsub p Hp. apply Hsub in Hp.
  repeat (apply elem_of_cons in Hp as [->|Hp]; [eexists; reflexivity|]).
  by apply elem_of_nil in Hp.
Qed.

Lemma Service_first_match_witness :
  Service family (root_with_services [1; 2; 3]%positive) "parent" = Returns (Some 3%positive)
  ∧ Service family (root_with_services [1; 2; 3]%positive) "absent" = Returns None.
Proof.
  destruct (Service_first_match family (root_with_services [1; 2; 3]%positive) "parent")
    as (found & Hf & _); [by apply family_allocated|].
  destruct (Service_first_match family (root_with_services [1; 2; 3]%positive) "absent")
    as (found' & Hf' & _); [by apply family_allocated|].
  split.
  - rewrite Hf. rewrite <- Hf. reflexivity.
  - rewrite Hf'. rewrite <- Hf'. reflexivity.
Defined.

Lemma Service_loop_heap (σ σ' : services) (ps : list loc) (name : string) :
  (∀ p, p ∈ ps → σ' !! p = σ !! p) →
  Service_loop σ' ps name = Service_loop σ ps name.
Proof.
  induction ps as [|q ps IH]; intros Hext; [done|].
  cbn [Service_loop deref]. rewrite Hext by (apply elem_of_cons; by left).
  destruct (σ !! q) as [svc|]; [|done]. cbn [obind].
  destruct (String.eqb _ _); [done|]. apply IH.
  intros p Hp. apply Hext, elem_of_cons. by right.
Qed.

Lemma service_names_heap (σ σ' : services) (ps : list loc) :
  (∀ p, p ∈ ps → σ' !! p = σ !! p) →
  service_names σ' ps = service_names σ ps.
Proof.
  induction ps as [|q ps IH]; intros Hext; [done|].
  unfold service_names in *. cbn [omap list_omap].
  rewrite Hext by (apply elem_of_cons; by left).
  rewrite IH; [done|]. intros p Hp. apply Hext, elem_of_cons. by right.
Qed.

Lemma Service_loop_app_absent (σ : services) (ps qs : list loc) (name : string) :
  services_allocated σ ps → (name ∉ service_names σ ps) →
  Service_loop σ (ps ++ qs) name = Service_loop σ qs name.
Proof.
  induction ps as [|q ps IH]; intros Hall Hnot; [done|].
  apply services_allocated_cons in Hall as [[svc Hq] Hall].
  rewrite (service_names_cons _ _ _ _ Hq) in Hnot.
  apply not_elem_of_cons in Hnot as [Hne Hnot].
  cbn [app Service_loop deref]. rewrite Hq. cbn [obind].
  destruct (String.eqb (ServiceExpr.Name svc) name) eqn:E.
  - apply String.eqb_eq in E. congruence.
  - by apply IH.
Qed.

Lemma fresh_service_unallocated (σ : services) : σ !! fresh (dom σ) = None.
Proof. apply not_elem_of_dom, is_fresh. Qed.

Lemma allocated_insert_fresh (σ : services) (ps : list loc) (svc : ServiceExpr.t) :
  services_allocated σ ps →
  ∀ p, p ∈ ps → <[fresh (dom σ) := svc]> σ !! p = σ !! p.
Proof.
  intros Hall p Hp. apply lookup_insert_ne. intros <-.
  destruct (Hall _ Hp) as [svc' Hsvc]. by rewrite fresh_service_unallocated in Hsvc.
Qed.

Lemma Service_first_match_aux (σ : services) (r : RootExpr.t) (name : string) (res : loc) :
  services_allocated σ (RootExpr.HTTPServices r) →
  Service σ r name = Returns (Some res) →
  ∃ svc, σ !! res = Some svc ∧ ServiceExpr.Name svc = name
         ∧ res ∈ RootExpr.HTTPServices r.
Proof.
  intros Hall. unfold Service.
  destruct (Service_loop_spec σ (RootExpr.HTTPServices r) name Hall)
    as [[Hnone Hnot]|(l1 & p & l2 & svc & Hps & Hp & Hn & Hl1 & Hsome)].
  - by rewrite Hnone.
  - rewrite Hsome. intros [= <-]. exists svc. split; [done|]. split; [done|].
    rewrite Hps. apply elem_of_app. right. apply elem_of_cons. by left.
Qed.

(** The two outcomes of [ServiceFor] on allocated services. *)
Lemma ServiceFor_cases (σ : services) (r : RootExpr.t) (s : design_service.ServiceExpr) :
  services_allocated σ (RootExpr.HTTPServices r) →
  (∃ res, Service σ r (design_service.Name s) = Returns (Some res)
          ∧ design_service.Name s ∈ service_names σ (RootExpr.HTTPServices r)
          ∧ ServiceFor σ r s = Returns (res, (σ, r)))
  ∨ (Service σ r (design_service.Name s) = Returns None
     ∧ (design_service.Name s ∉ service_names σ (RootExpr.HTTPServices r))
     ∧ ServiceFor σ r s
       = Returns (fresh (dom σ),
                  (<[fresh (dom σ) := new_service s]> σ,
                   RootExpr.set_HTTPServices r
                     (RootExpr.HTTPServices r ++ [fresh (dom σ)])))).
Proof.
  intros Hall. unfold ServiceFor, Service.
  destruct (Service_loop_spec σ (RootExpr.HTTPServices r) (design_service.Name s) Hall)
    as [[Hnone Hnot]|(l1 & p & l2 & svc & Hps & Hp & Hn & Hl1 & Hsome)].
  - right. by rewrite Hnone.
  - left. exists p. rewrite Hsome. split; [done|]. split; [|done].
    rewrite Hps, service_names_app, (service_names_cons _ _ _ _ Hp), Hn.
    apply elem_of_app. right. apply elem_of_cons. by left.
Qed.

(** [Service] finds the service that [ServiceFor] has just appended. *)
Lemma Service_after_append (σ : services) (r : RootExpr.t) (s : design_service.ServiceExpr) :
  services_allocated σ (RootExpr.HTTPServices r) →
  (design_service.Name s ∉ service_names σ (RootExpr.HTTPServices r)) →
  Service (<[fresh (dom σ) := new_service s]> σ)
    (RootExpr.set_HTTPServices r (RootExpr.HTTPServices r ++ [fresh (dom σ)]))
    (design_service.Name s)
  = Returns (Some (fresh (dom σ))).
Proof.
  intros Hall Hnot. unfold Service. cbn [RootExpr.HTTPServices RootExpr.set_HTTPServices].
  rewrite Service_loop_app_absent.
  - cbn [Service_loop deref]. rewrite lookup_insert_eq. cbn [obind new_service ServiceExpr.Name].
    by rewrite String.eqb_refl.
  - intros p Hp. rewrite (allocated_insert_fresh σ (RootExpr.HTTPServices r)) by done.
    by apply Hall.
  - rewrite (service_names_heap σ); [done|]. by apply allocated_insert_fresh.
Qed.

(** X2.  [ServiceFor] gets or creates: it returns a service that has the
    name asked for and is in the root's slice afterwards, [Service] finds
    that same service under the name, and a further call for a service of
    the same name returns it again and changes nothing. *)
Theorem ServiceFor_get_or_create (σ : services) (r : RootExpr.t)
    (s s' : design_service.ServiceExpr) :
  services_allocated σ (RootExpr.HTTPServices r) →
  design_service.Name s' = design_service.Name s →
  ∃ res σ' r',
    ServiceFor σ r s = Returns (res, (σ', r'))
    ∧ (∃ svc, σ' !! res = Some svc ∧ ServiceExpr.Name svc = design_service.Name s)
    ∧ res ∈ RootExpr.HTTPServices r'
    ∧ Service σ' r' (design_service.Name s) = Returns (Some res)
    ∧ ServiceFor σ' r' s' = Returns (res, (σ', r')).
Proof.
  intros Hall Hname.
  destruct (ServiceFor_cases σ r s Hall) as [(res & Hfound & Hin & Hfor)|(Hnone & Hnot & Hfor)].
  - exists res, σ, r. split; [done|].
    destruct (Service_first_match_aux σ r (design_service.Name s) res Hall Hfound)
      as (svc & Hres & Hn & Hmem).
    split; [by exists svc|]. split; [done|]. split; [done|].
    unfold ServiceFor. by rewrite Hname, Hfound.
  - eexists _, _, _. split; [exact Hfor|].
    split; [exists (new_service s); by rewrite lookup_insert_eq|].
    split.
    { cbn [RootExpr.HTTPServices RootExpr.set_HTTPServices].
      apply elem_of_app. right. apply elem_of_cons. by left. }
    pose proof (Service_after_append σ r s Hall Hnot) as Hafter.
    split; [done|]. unfold ServiceFor. by rewrite Hname, Hafter.
Qed.

Lemma ServiceFor_get_or_create_witness :
  ∃ res σ' r',
    ServiceFor family (root_with_services [1; 2; 3]%positive)
      {| design_service.Name := "orders" |} = Returns (res, (σ', r'))
    ∧ Service σ' r' "orders" = Returns (Some res)
    ∧ ServiceFor σ' r' {| design_service.Name := "orders" |} = Returns (res, (σ', r')).
Proof.
  destruct (ServiceFor_get_or_create family (root_with_services [1; 2; 3]%positive)
              {| design_service.Name := "orders" |} {| design_service.Name := "orders" |})
    as (res & σ' & r' & H1 & _ & _ & H2 & H3); [by apply family_allocated|reflexivity|].
  by exists res, σ', r'.
Defined.

(** X3.  [ServiceFor] keeps the registry in order.  The services stay
    allocated and the ones that were there are untouched; for a name that
    is taken nothing changes; for a new name one service, with that name
    and no other content, is allocated at a free address and appended
    after the others; names that were distinct stay distinct; the other
    fields of the root are kept. *)
Theorem ServiceFor_registry (σ : services) (r : RootExpr.t) (s : design_service.ServiceExpr) :
  services_allocated σ (RootExpr.HTTPServices r) →
  ∃ res σ' r',
    ServiceFor σ r s = Returns (res, (σ', r'))
    ∧ services_allocated σ' (RootExpr.HTTPServices r')
    ∧ (∀ p svc, σ !! p = Some svc → σ' !! p = Some svc)
    ∧ (design_service.Name s ∈ service_names σ (RootExpr.HTTPServices r) → σ' = σ ∧ r' = r)
    ∧ ((design_service.Name s ∉ service_names σ (RootExpr.HTTPServices r)) →
       σ !! res = None ∧ σ' = <[res := new_service s]> σ
       ∧ RootExpr.HTTPServices r' = RootExpr.HTTPServices r ++ [res])
    ∧ (NoDup (service_names σ (RootExpr.HTTPServices r)) →
       NoDup (service_names σ' (RootExpr.HTTPServices r')))
    ∧ RootExpr.Design r' = RootExpr.Design r ∧ RootExpr.Path r' = RootExpr.Path r
    ∧ RootExpr.params r' = RootExpr.params r ∧ RootExpr.headers r' = RootExpr.headers r.
Proof.
  intros Hall.
  destruct (ServiceFor_cases σ r s Hall) as [(res & Hfound & Hin & Hfor)|(Hnone & Hnot & Hfor)].
  - exists res, σ, r. split; [done|]. split; [done|]. split; [done|].
    split; [done|]. split; [done|]. done.
  - eexists _, _, _. split; [exact Hfor|].
    pose proof (fresh_service_unallocated σ) as Hfresh.
    pose proof (allocated_insert_fresh σ (RootExpr.HTTPServices r) (new_service s) Hall) as Hext.
    cbn [RootExpr.HTTPServices RootExpr.set_HTTPServices RootExpr.Design RootExpr.Path
         RootExpr.params RootExpr.headers].
    split.
    { intros p [Hp|Hp]%elem_of_app.
      - rewrite Hext by done. by apply Hall.
      - apply elem_of_cons in Hp as [->|Hp]; [|by apply elem_of_nil in Hp].
        rewrite lookup_insert_eq. by eexists. }
    split.
    { intros p svc Hp. rewrite lookup_insert_ne; [done|]. intros <-. congruence. }
    split; [done|]. split; [done|]. split; [|done].
    intros Hnd. rewrite service_names_app, (service_names_heap σ) by done.
    rewrite (service_names_cons _ _ _ (new_service s)) by apply lookup_insert_eq.
    apply NoDup_app. split; [done|]. split.
    + intros name Hname [->|Hn]%elem_of_cons; [done|]. by apply elem_of_nil in Hn.
    + apply NoDup_singleton.
Qed.

Lemma ServiceFor_registry_witness :
  ∃ res σ' r',
    ServiceFor family (root_with_services [1; 2; 3]%positive)
      {| design_service.Name := "orders" |} = Returns (res, (σ', r'))
    ∧ RootExpr.HTTPServices r' = [1; 2; 3]%positive ++ [res]
    ∧ family !! res = None
    ∧ NoDup (service_names σ' (RootExpr.HTTPServices r')).
Proof.
  destruct (ServiceFor_registry family (root_with_services [1; 2; 3]%positive)
              {| design_service.Name := "orders" |})
    as (res & σ' & r' & H1 & _ & _ & _ & H2 & H3 & _); [by apply family_allocated|].
  destruct H2 as (Hfree & _ & Hps).
  { vm_compute. intros H. repeat (apply elem_of_cons in H as [H|H]; [discriminate H|]).
    by apply elem_of_nil in H. }
  exists res, σ', r'. split; [exact H1|]. split; [exact Hps|]. split; [exact Hfree|].
  apply H3. vm_compute.
  repeat (apply NoDup_cons; split;
          [intros H; repeat (apply elem_of_cons in H as [H|H]; [discriminate H|]);
           by apply elem_of_nil in H|]).
  apply NoDup_nil_2.
Defined.

(** ** Headers and Params together *)

Lemma attach_other (h : design.attributes) (p q : loc) (name : string) (child : loc) :
  p ≠ q → design.attach h p name child !! q = h !! q.
Proof.
  intros Hne. unfold design.attach.
  destruct (h !! p) as [[[fields|kind]]|]; [|done..].
  by rewrite lookup_insert_ne.
Qed.

(** X4.  On a root with neither field set, [Headers] followed by [Params]
    gives two different objects; the second allocation leaves the first
    object and every attribute that was in the heap as they were, and each
    call sets its own field only.  An attribute attached to the headers
    does not show in the parameters. *)
Theorem Headers_Params_separate (r : RootExpr.t) (h : design.attributes)
    (name : string) (child : loc) :
  RootExpr.headers r = None → RootExpr.params r = None →
  ∃ lh lp r2 h2,
    Headers r h = (Some lh, (RootExpr.set_headers r (Some lh),
                              <[lh := {| design.Type_ := design.Object [] |}]> h))
    ∧ Params (Headers r h).2.1 (Headers r h).2.2 = (Some lp, (r2, h2))
    ∧ lh ≠ lp
    ∧ h2 !! lh = Some {| design.Type_ := design.Object [] |}
    ∧ h2 !! lp = Some {| design.Type_ := design.Object [] |}
    ∧ (∀ p a, h !! p = Some a → h2 !! p = Some a)
    ∧ RootExpr.headers r2 = Some lh ∧ RootExpr.params r2 = Some lp
    ∧ RootExpr.HTTPServices r2 = RootExpr.HTTPServices r
    ∧ RootExpr.Path r2 = RootExpr.Path r ∧ RootExpr.Design r2 = RootExpr.Design r
    ∧ design.attach h2 lh name child !! lp = Some {| design.Type_ := design.Object [] |}.
Proof.
  intros Hh Hp.
  rewrite (Headers_unset r h Hh). cbn [fst snd].
  set (lh := fresh (dom h)).
  set (h1 := <[lh := {| design.Type_ := design.Object [] |}]> h).
  assert (Hp1 : RootExpr.params (RootExpr.set_headers r (Some lh)) = None) by done.
  rewrite (Params_unset _ h1 Hp1).
  set (lp := fresh (dom h1)).
  assert (Hne : lh ≠ lp).
  { intros Heq. pose proof (fresh_unallocated h1) as Hf. fold lp in Hf.
    rewrite <- Heq in Hf. unfold h1 in Hf. by rewrite lookup_insert_eq in Hf. }
  assert (Hfree : h !! lh = None) by apply fresh_unallocated.
  eexists lh, lp, _, _. split; [done|]. split; [done|]. split; [done|].
  split; [rewrite lookup_insert_ne by done; unfold h1; by rewrite lookup_insert_eq|].
  split; [by rewrite lookup_insert_eq|].
  split.
  { intros p a Ha. assert (p ≠ lh) by congruence.
    assert (p ≠ lp).
    { intros ->. pose proof (fresh_unallocated h1) as Hf. fold lp in Hf.
      unfold h1 in Hf. rewrite lookup_insert_ne in Hf by done. congruence. }
    rewrite lookup_insert_ne by done. unfold h1. by rewrite lookup_insert_ne. }
  do 5 (split; [done|]).
  rewrite attach_other by done. by rewrite lookup_insert_eq.
Qed.

Lemma Headers_Params_separate_witness :
  ∃ lh lp r2 h2,
    Params (Headers (root_with_servers []) ∅).2.1 (Headers (root_with_servers []) ∅).2.2
    = (Some lp, (r2, h2))
    ∧ lh ≠ lp
    ∧ RootExpr.headers r2 = Some lh ∧ RootExpr.params r2 = Some lp.
Proof.
  destruct (Headers_Params_separate (root_with_servers []) ∅ "X-Request-Id" 7%positive)
    as (lh & lp & r2 & h2 & _ & H1 & H2 & _ & _ & _ & H3 & H4 & _); [reflexivity..|].
  by exists lh, lp, r2, h2.
Defined.

(** ** More on ExtractWildcards *)

(** Every match of the pattern is a marker around its group. *)
Lemma find_all_markers (fuel : nat) (s : string) (m : Regexp.submatch) :
  m ∈ Regexp.find_all fuel WildcardRegex s →
  wildcard_name (Regexp.group1 m) = true
  ∧ ∃ star, Regexp.whole m = marker star (Regexp.group1 m).
Proof.
  revert s. induction fuel as [|fuel IH]; intros s.
  { intros H. by apply elem_of_nil in H. }
  cbn [Regexp.find_all]. rewrite match_here_wildcard.
  destruct (wildcard_here s) as [m0|] eqn:Hm0.
  - pose proof (wildcard_here_inv _ _ Hm0) as (star & Hname & Hwhole & _).
    assert (Hhere : ∀ rest, m ∈ m0 :: rest →
              (m ∈ rest → wildcard_name (Regexp.group1 m) = true
                          ∧ ∃ star, Regexp.whole m = marker star (Regexp.group1 m)) →
              wildcard_name (Regexp.group1 m) = true
              ∧ ∃ star, Regexp.whole m = marker star (Regexp.group1 m)).
    { intros rest [->|Hin]%elem_of_cons Hrest; [|by apply Hrest].
      split; [done|]. by exists star. }
    case_decide.
    + intros Hin. apply (Hhere _ Hin), IH.
    + destruct s as [|c s].
      * intros Hin. apply (Hhere _ Hin). intros H'. by apply elem_of_nil in H'.
      * intros Hin. apply (Hhere _ Hin), IH.
  - destruct s as [|c s]; [intros H; by apply elem_of_nil in H|]. apply IH.
Qed.

Lemma all_bytes_elem (cls : ascii → bool) (s : string) (c : ascii) :
  all_bytes cls s = true → c ∈ list_ascii_of_string s → cls c = true.
Proof.
  induction s as [|a s IH]; simpl.
  - intros _ H. by apply elem_of_nil in H.
  - intros [Ha Hs]%andb_prop [->|Hin]%elem_of_cons; [done|by apply IH].
Qed.

(** The matches do not overlap and a marker has four bytes or more. *)
Lemma find_all_length (fuel : nat) (s : string) :
  4 * length (Regexp.find_all fuel WildcardRegex s) ≤ String.length s.
Proof.
  revert s. induction fuel as [|fuel IH]; intros s; [simpl; lia|].
  cbn [Regexp.find_all]. rewrite match_here_wildcard.
  destruct (wildcard_here s) as [m0|] eqn:Hm0.
  - pose proof (wildcard_here_inv _ _ Hm0) as (star & Hname & Hwhole & Hs).
    apply wildcard_name_inv in Hname as (a & w & Hn & _).
    assert (Hlen : String.length (Regexp.after m0) + 4 ≤ String.length s).
    { assert (String.length s
              = String.length (String.append (Regexp.whole m0) (Regexp.after m0)))
        as -> by (by rewrite <- Hs).
      rewrite Hwhole, Hn, marker_app. simpl.
      rewrite !length_append. simpl. lia. }
    rewrite decide_True by lia. cbn [length].
    specialize (IH (Regexp.after m0)). lia.
  - destruct s as [|c s]; [simpl; lia|]. specialize (IH s). simpl. lia.
Qed.

(** X5.  Every name that [ExtractWildcards] returns is a run of one or
    more bytes of [[a-zA-Z0-9_]], so it holds no slash, brace or star; and
    a path of [n] bytes has at most [n / 4] wildcards. *)
Theorem ExtractWildcards_names (path name : string) :
  name ∈ ExtractWildcards path →
  wildcard_name name = true
  ∧ name ≠ EmptyString
  ∧ (∀ c, c ∈ list_ascii_of_string name →
          word_byte c = true
          ∧ c ≠ "/"%char ∧ c ≠ "{"%char ∧ c ≠ "}"%char ∧ c ≠ "*"%char)
  ∧ 4 * length (ExtractWildcards path) ≤ String.length path.
Proof.
  unfold ExtractWildcards, Regexp.FindAllStringSubmatch. rewrite fill_indexed_map.
  intros (m & -> & Hm)%list_elem_of_fmap.
  apply find_all_markers in Hm as [Hname _].
  split; [done|]. split; [|split].
  - apply wildcard_name_inv in Hname as (a & w & -> & _). done.
  - intros c Hc. apply andb_prop in Hname as [_ Hall].
    pose proof (all_bytes_elem _ _ _ Hall Hc) as Hw.
    split; [done|]. repeat split; intros ->; discriminate Hw.
  - rewrite length_map. apply find_all_length.
Qed.

Lemma ExtractWildcards_names_witness :
  wildcard_name "path" = true
  ∧ 4 * length (ExtractWildcards "/users/{id}/files/{*path}")
    ≤ String.length "/users/{id}/files/{*path}".
Proof.
  assert (E : ExtractWildcards "/users/{id}/files/{*path}" = ["id"; "path"])
    by (vm_compute; reflexivity).
  destruct (ExtractWildcards_names "/users/{id}/files/{*path}" "path") as (H1 & _ & _ & H2).
  { rewrite E. apply elem_of_cons. right. apply elem_of_cons. by left. }
  split; [exact H1|exact H2].
Defined.

Lemma append_empty_r (s : string) : String.append s EmptyString = s.
Proof. induction s as [|c s IH]; [done|]. by rewrite append_cons, IH. Qed.

(** A match at the start of the input stays what it is when the input is
    extended. *)
Lemma wildcard_here_app (p b : string) (m : Regexp.submatch) :
  wildcard_here p = Some m →
  wildcard_here (String.append p b)
  = Some (Regexp.Submatch (Regexp.whole m) (Regexp.group1 m)
            (String.append (Regexp.after m) b)).
Proof.
  intros (star & Hname & Hwhole & Hp)%wildcard_here_inv.
  rewrite Hp, append_assoc, Hwhole. by apply wildcard_here_marker.
Qed.

Lemma find_all_names_app (fuel : nat) (a x : string) :
  String.length (String.append a (String "/" x)) < fuel →
  Regexp.group1 <$> Regexp.find_all fuel WildcardRegex (String.append a (String "/" x))
  = (Regexp.group1 <$> Regexp.find_all fuel WildcardRegex a)
    ++ (Regexp.group1 <$> Regexp.find_all fuel WildcardRegex (String "/" x)).
Proof.
  revert a. induction fuel as [|fuel IH]; intros a Hlen; [lia|].
  destruct a as [|c p].
  { rewrite append_empty. done. }
  rewrite length_append in Hlen.
  rewrite (find_all_fuel WildcardRegex (S fuel) fuel (String "/" x))
    by (simpl in *; lia).
  remember (Regexp.group1 <$> Regexp.find_all fuel WildcardRegex (String "/" x)) as tail
    eqn:Htail.
  cbn [Regexp.find_all]. rewrite !match_here_wildcard.
  destruct (wildcard_here (String c p)) as [m|] eqn:Hm.
  - rewrite (wildcard_here_app _ _ _ Hm). cbn [Regexp.after].
    pose proof (wildcard_here_inv _ _ Hm) as (star & Hname & Hwhole & Hp).
    apply wildcard_name_inv in Hname as (a0 & w & Hn & _).
    assert (Hshort : String.length (Regexp.after m) + 4 ≤ String.length (String c p)).
    { assert (String.length (String c p)
              = String.length (String.append (Regexp.whole m) (Regexp.after m)))
        as -> by (by rewrite <- Hp).
      rewrite Hwhole, Hn, marker_app. simpl. rewrite !length_append. simpl. lia. }
    rewrite !decide_True by (rewrite ?length_append; lia).
    rewrite !fmap_cons. cbn [Regexp.group1].
    rewrite IH by (rewrite length_append; lia).
    by rewrite <- app_comm_cons, Htail.
  - rewrite wildcard_here_app_slash by done. rewrite append_cons.
    rewrite IH by (rewrite length_append; simpl in *; lia).
    by rewrite Htail.
Qed.

Lemma MatchString_names (s : string) :
  Regexp.MatchString WildcardRegex s = negb (bool_decide (ExtractWildcards s = [])).
Proof.
  unfold ExtractWildcards. rewrite fill_indexed_map.
  pose proof (MatchString_find_all WildcardRegex s) as H.
  destruct (Regexp.MatchString WildcardRegex s).
  - destruct (Regexp.FindAllStringSubmatch WildcardRegex s); [by destruct H as [H _]; destruct H|done].
  - destruct (Regexp.FindAllStringSubmatch WildcardRegex s) as [|m ms]; [done|].
    destruct H as [_ H]. by discriminate H.
Qed.

(** X6.  Wildcards do not straddle a separator: for a path [a] followed
    by a part [b] that is empty or starts with a slash, the wildcards of
    the whole are those of [a] followed by those of [b], and the pattern
    matches the whole exactly when it matches one of the two. *)
Theorem ExtractWildcards_app (a b : string) :
  GoPath.sep_or_end b = true →
  ExtractWildcards (String.append a b) = ExtractWildcards a ++ ExtractWildcards b
  ∧ Regexp.MatchString WildcardRegex (String.append a b)
    = Regexp.MatchString WildcardRegex a || Regexp.MatchString WildcardRegex b.
Proof.
  intros Hb.
  assert (Happ : ExtractWildcards (String.append a b)
                 = ExtractWildcards a ++ ExtractWildcards b).
  { destruct b as [|c x].
    { rewrite append_empty_r. by rewrite app_nil_r. }
    simpl in Hb. apply Ascii.eqb_eq in Hb. subst c.
    unfold ExtractWildcards, Regexp.FindAllStringSubmatch. rewrite !fill_indexed_map.
    change GoPath.slash with "/"%char.
    rewrite find_all_names_app by lia. f_equal.
    - apply (f_equal (fmap Regexp.group1)), find_all_fuel; rewrite ?length_append; lia.
    - apply (f_equal (fmap Regexp.group1)), find_all_fuel; rewrite ?length_append; lia. }
  split; [done|].
  rewrite !MatchString_names, Happ.
  destruct (ExtractWildcards a), (ExtractWildcards b); done.
Qed.

Lemma ExtractWildcards_app_witness :
  ExtractWildcards (String.append "/users/{id}" "/files/{*path}")
  = ExtractWildcards "/users/{id}" ++ ExtractWildcards "/files/{*path}".
Proof.
  destruct (ExtractWildcards_app "/users/{id}" "/files/{*path}") as [H _]; [reflexivity|].
  exact H.
Defined.

(** ** More on NameMap and on Split *)

Lemma before_sep_free (sep : ascii) (s : string) :
  GoStrings.occurs sep (GoStrings.before sep s) = false.
Proof.
  induction s as [|c s IH]; simpl; [done|].
  destruct (Ascii.eqb c sep) eqn:E; simpl; [done|]. by rewrite E, IH.
Qed.

Lemma Split_nonempty (s : string) (sep : ascii) :
  ∃ hd tl, GoStrings.Split s sep = hd :: tl.
Proof. rewrite Split_before_after. eauto. Qed.

Lemma Split_sep_free (s : string) (sep : ascii) (e : string) :
  e ∈ GoStrings.Split s sep → GoStrings.occurs sep e = false.
Proof.
  revert e. induction s as [|c s IH]; intros e; simpl.
  - intros [->|H]%elem_of_cons; [done|by apply elem_of_nil in H].
  - destruct (Ascii.eqb c sep) eqn:E.
    + intros [->|H]%elem_of_cons; [done|by apply IH].
    + destruct (Split_nonempty s sep) as (hd & tl & Hs). rewrite Hs in IH |- *.
      intros [->|H]%elem_of_cons.
      * simpl. rewrite E. apply IH, elem_of_cons. by left.
      * apply IH, elem_of_cons. by right.
Qed.

Lemma join_with_cons (sep c : ascii) (hd : string) (tl : list string) :
  join_with sep (String c hd :: tl) = String c (join_with sep (hd :: tl)).
Proof. by destruct tl. Qed.

(** [strings.Split] at a one-byte separator loses nothing: the
    pieces hold no separator, there is at least one piece, and the pieces
    joined with the separator are the input. *)
Theorem Split_join (s : string) (sep : ascii) :
  join_with sep (GoStrings.Split s sep) = s
  ∧ (∀ e, e ∈ GoStrings.Split s sep → GoStrings.occurs sep e = false)
  ∧ 0 < length (GoStrings.Split s sep)
  ∧ (GoStrings.occurs sep s = false → GoStrings.Split s sep = [s]).
Proof.
  split; [|split; [apply Split_sep_free|split]].
  - induction s as [|c s IH]; [done|]. simpl.
    destruct (Split_nonempty s sep) as (hd & tl & Hs). rewrite Hs in IH |- *.
    destruct (Ascii.eqb c sep) eqn:E.
    + apply Ascii.eqb_eq in E. subst c.
      change (String.append EmptyString (String sep (join_with sep (hd :: tl)))
              = String sep s).
      by rewrite append_empty, IH.
    + by rewrite join_with_cons, IH.
  - destruct (Split_nonempty s sep) as (hd & tl & ->). simpl. lia.
  - intros Hno. rewrite Split_before_after, Hno. by rewrite before_no_sep.
Qed.

Lemma Split_join_witness :
  GoStrings.Split "id" ":" = ["id"]
  ∧ join_with ":" (GoStrings.Split "a:b:c" ":") = "a:b:c".
Proof.
  destruct (Split_join "id" ":") as (_ & _ & _ & H1).
  destruct (Split_join "a:b:c" ":") as (H2 & _).
  split; [apply H1; reflexivity|exact H2].
Defined.

(** X7.  [NameMap] always returns, never panics on the index; neither
    name holds a colon; the attribute name starts the token; and the
    decoding is stable: each name decodes to itself twice, and the two
    names put together with a colon decode to the same pair. *)
Theorem NameMap_stable (encoded : string) :
  ∃ attName name,
    NameMap encoded = Returns (attName, name)
    ∧ GoStrings.occurs ":" attName = false
    ∧ GoStrings.occurs ":" name = false
    ∧ GoStrings.HasPrefix encoded attName = true
    ∧ NameMap attName = Returns (attName, attName)
    ∧ NameMap name = Returns (name, name)
    ∧ NameMap (String.append attName (String ":" name)) = Returns (attName, name).
Proof.
  rewrite NameMap_unfold. eexists _, _. split; [done|].
  set (attName := GoStrings.before ":" encoded).
  set (name := if GoStrings.occurs ":" encoded
               then GoStrings.before ":" (GoStrings.after ":" encoded)
               else attName).
  assert (Hatt : GoStrings.occurs ":" attName = false) by apply before_sep_free.
  assert (Hname : GoStrings.occurs ":" name = false).
  { unfold name. destruct (GoStrings.occurs ":" encoded); [apply before_sep_free|done]. }
  split; [done|]. split; [done|]. split.
  { unfold attName, GoStrings.HasPrefix. clear.
    induction encoded as [|c s IH]; [done|]. cbn [GoStrings.before].
    destruct (Ascii.eqb c ":"); [done|]. cbn [String.prefix].
    by destruct (ascii_dec c c). }
  split; [by rewrite NameMap_unfold, Hatt, before_no_sep|].
  split; [by rewrite NameMap_unfold, Hname, before_no_sep|].
  rewrite NameMap_unfold, occurs_app, before_app, after_app by done.
  by rewrite before_no_sep.
Qed.

(** ** More on Finalize *)

(** Only the root path is returned by [Clean] with a slash at its end. *)
Lemma Clean_trailing (path : string) :
  slash_last_only_root (list_ascii_of_string (GoPath.Clean path)).
Proof.
  unfold GoPath.Clean. destruct path as [|c p1]; [done|].
  set (rooted := Ascii.eqb c GoPath.slash).
  assert (Hinv : ∃ dotdot,
    clean_inv rooted
      (if rooted
       then GoPath.clean_loop (String.length (String c p1)) true p1 [GoPath.slash] 1
       else GoPath.clean_loop (String.length (String c p1)) false (String c p1) [] 0)
      dotdot).
  { destruct rooted; apply clean_loop_inv; split; try done;
      try (by intros [|[|i]]). }
  destruct Hinv as [dotdot Hinv].
  match goal with |- context [match ?o with [] => _ | _ :: _ => _ end] =>
    destruct o as [|a out] eqn:Hout end; [done|].
  rewrite list_ascii_of_string_of_list_ascii. apply Hinv.
Qed.

Lemma Join_trailing (elem : list string) :
  slash_last_only_root (list_ascii_of_string (GoPath.Join elem)).
Proof.
  unfold GoPath.Join. case_match; [done|]. apply Clean_trailing.
Qed.

Lemma Join_all_empty (elem : list string) :
  (∀ e, e ∈ elem → e = EmptyString) → GoPath.Join elem = EmptyString.
Proof.
  intros Hall. unfold GoPath.Join.
  assert (Hsize : ∀ n, foldl (λ n e, n + String.length e) n elem = n).
  { induction elem as [|e elem IH]; intros n; [done|]. simpl.
    rewrite (Hall e) by (apply elem_of_cons; by left). simpl.
    rewrite Nat.add_0_r. apply IH. intros e' He'. apply Hall, elem_of_cons. by right. }
  by rewrite Hsize.
Qed.

Lemma HasPrefix_head (s : string) :
  GoStrings.HasPrefix s "/" = true ↔ head (list_ascii_of_string s) = Some GoPath.slash.
Proof.
  rewrite <- (string_of_list_ascii_of_string s) at 1. apply HasPrefix_slash.
Qed.

(** X8.  The request path that [Finalize] stores is never empty and ends
    in a slash only when it is the root path ["/"]; with an empty root
    path, an empty service path and an empty declared path it is the root
    path. *)
Theorem Finalize_trailing_slash (Root : RootExpr.t) (σ : services)
    (f : FileServerExpr.t) (l : loc) (svc : ServiceExpr.t) :
  FileServerExpr.Service f = Some l → σ !! l = Some svc →
  ∃ f', Finalize Root σ f = Returns f'
    ∧ FileServerExpr.RequestPath f' ≠ EmptyString
    ∧ (last_byte (FileServerExpr.RequestPath f') = Some "/"%char →
       FileServerExpr.RequestPath f' = "/")
    ∧ (RootExpr.Path Root = EmptyString → ServiceExpr.Path svc = EmptyString →
       FileServerExpr.RequestPath f = EmptyString →
       FileServerExpr.RequestPath f' = "/").
Proof.
  intros Hs Hl. unfold Finalize, deref. rewrite Hs, Hl. cbn [obind].
  eexists. split; [done|]. cbn [FileServerExpr.RequestPath].
  set (joined := GoPath.Join _).
  pose proof (Join_trailing [RootExpr.Path Root; ServiceExpr.Path svc;
                             FileServerExpr.RequestPath f]) as Hj.
  fold joined in Hj.
  destruct (GoStrings.HasPrefix joined "/") eqn:Hp; cbn [negb].
  - split; [by destruct joined|]. split.
    + unfold last_byte. intros Hlast. apply Hj in Hlast.
      rewrite <- (string_of_list_ascii_of_string joined), Hlast. done.
    + intros H1 H2 H3. exfalso.
      assert (joined = EmptyString) as Hempty.
      { apply Join_all_empty. intros e He.
        repeat (apply elem_of_cons in He as [->|He]; [done|]).
        by apply elem_of_nil in He. }
      by rewrite Hempty in Hp.
  - split; [done|]. split.
    + unfold last_byte.
      change (list_ascii_of_string (String.append "/" joined))
        with (GoPath.slash :: list_ascii_of_string joined).
      destruct (list_ascii_of_string joined) as [|a t] eqn:Hbytes.
      * intros _. rewrite <- (string_of_list_ascii_of_string joined), Hbytes. done.
      * rewrite last_cons_cons. intros Hlast. apply Hj in Hlast.
        assert (GoStrings.HasPrefix joined "/" = true); [|congruence].
        apply HasPrefix_head. rewrite Hbytes. by injection Hlast as -> _.
    + intros H1 H2 H3.
      assert (joined = EmptyString) as ->; [|done].
      apply Join_all_empty. intros e He.
      repeat (apply elem_of_cons in He as [->|He]; [done|]).
      by apply elem_of_nil in He.
Qed.

Lemma Finalize_trailing_slash_witness :
  ∃ f', Finalize (RootExpr.mk None "" [] [] [1%positive] None None)
          {[ 1%positive := ServiceExpr.mk "files" "" "" [] [] ]}
          (FileServerExpr.mk (Some 1%positive) "" "public" "") = Returns f'
        ∧ FileServerExpr.RequestPath f' = "/".
Proof.
  destruct (Finalize_trailing_slash
              (RootExpr.mk None "" [] [] [1%positive] None None)
              {[ 1%positive := ServiceExpr.mk "files" "" "" [] [] ]}
              (FileServerExpr.mk (Some 1%positive) "" "public" "")
              1%positive (ServiceExpr.mk "files" "" "" [] []))
    as (f' & Hf & _ & _ & Hroot); [reflexivity..|].
  exists f'. split; [exact Hf|]. apply Hroot; reflexivity.
Defined.

(** ** The insertion sort of up to 20 services *)

Section insertion.

Context {A : Type} (less : A → A → bool).

(** The inner loop of [insertionSort] on the element after the prefix
    [l] is [sink]. *)
Lemma insert_down_sink (l post : list A) (x : A) :
  GoSort.insert_down less (l ++ x :: post) 0 (length l)
  = rev (sink less x (rev l)) ++ post.
Proof.
  revert post. induction l as [|y l IH] using rev_ind; intros post; [done|].
  rewrite length_app, Nat.add_1_r, rev_unit. cbn [GoSort.insert_down sink].
  rewrite bool_decide_eq_true_2 by lia. cbn [andb].
  assert (Hx : ((l ++ [y]) ++ x :: post) !! S (length l) = Some x).
  { rewrite <- app_assoc. rewrite lookup_app_r by lia.
    by replace (S (length l) - length l) with 1 by lia. }
  assert (Hy : ((l ++ [y]) ++ x :: post) !! length l = Some y).
  { rewrite <- app_assoc. apply list_lookup_middle. done. }
  unfold GoSort.Less, GoSort.Swap. rewrite Hx, Hy.
  destruct (less x y).
  - assert (Hswap : <[length l := x]> (<[S (length l) := y]> ((l ++ [y]) ++ x :: post))
                    = l ++ x :: y :: post).
    { rewrite <- app_assoc. cbn [app].
      rewrite insert_app_r_alt by lia.
      replace (S (length l) - length l) with 1 by lia. cbn [insert list_insert].
      rewrite insert_app_r_alt by lia. rewrite Nat.sub_diag. done. }
    rewrite Hswap, IH. cbn [rev]. by rewrite <- app_assoc.
  - cbn [rev]. rewrite rev_involutive. by rewrite <- !app_assoc.
Qed.

Lemma sink_length (x : A) (rl : list A) : length (sink less x rl) = S (length rl).
Proof.
  induction rl as [|y rl IH]; [done|]. simpl. destruct (less x y); simpl; by rewrite ?IH.
Qed.

(** The outer loop, from any round on. *)
Lemma insertion_rounds_loop (rdone todo : list A) :
  foldl (λ d i, GoSort.insert_down less d 0 i) (rev rdone ++ todo)
    (seq (length rdone) (length todo))
  = rev (insertion_rounds less rdone todo).
Proof.
  revert rdone. induction todo as [|x todo IH]; intros rdone.
  { simpl. by rewrite app_nil_r. }
  cbn [length seq foldl insertion_rounds].
  rewrite <- (length_rev rdone) at 1. rewrite insert_down_sink, rev_involutive.
  rewrite <- (sink_length x rdone). apply IH.
Qed.

(** [insertionSort] of the whole slice is insertion sort on lists. *)
Lemma insertionSort_rounds (data : list A) :
  GoSort.insertionSort less data 0 (length data) = rev (insertion_rounds less [] data).
Proof.
  unfold GoSort.insertionSort. destruct data as [|x data]; [done|].
  cbn [length]. replace (S (length data) - (0 + 1)) with (length data) by lia.
  apply (insertion_rounds_loop [x] data).
Qed.

(** Where [sink] puts the new element: behind a run of elements it is
    less than. *)
Lemma sink_split (x : A) (rl : list A) :
  ∃ rl1 rl2, rl = rl1 ++ rl2 ∧ sink less x rl = rl1 ++ x :: rl2
             ∧ Forall (λ y, less x y = true) rl1.
Proof.
  induction rl as [|y rl (rl1 & rl2 & Hrl & Hs & Hall)].
  { by exists [], []. }
  simpl. destruct (less x y) eqn:E.
  - exists (y :: rl1), rl2. rewrite Hrl at 1. rewrite Hs. split; [done|]. split; [done|].
    by constructor.
  - by exists [], (y :: rl).
Qed.

Lemma no_inversion_cons (y : A) (rl : list A) :
  no_inversion less (y :: rl) ↔
  (∀ y', head rl = Some y' → less y y' = false) ∧ no_inversion less rl.
Proof.
  destruct rl as [|y' rl]; simpl.
  - split; [|done]. intros _. split; [|done]. by intros y' [=].
  - split.
    + intros [H1 H2]. split; [|done]. by intros ? [= <-].
    + intros [H1 H2]. split; [|done]. by apply H1.
Qed.

(** [sink] keeps the slice free of inversions when the new element and
    the elements it passes are not less than each other. *)
Lemma sink_no_inversion (x : A) (rl : list A) :
  (∀ y, y ∈ rl → less x y = true → less y x = false) →
  no_inversion less rl → no_inversion less (sink less x rl).
Proof.
  induction rl as [|y rl IH]; intros Hasym Hno; [done|].
  cbn [sink]. destruct (less x y) eqn:E.
  - apply no_inversion_cons in Hno as [Hhead Hno].
    apply no_inversion_cons. split.
    + intros y' Hy'. destruct rl as [|z rl]; simpl in Hy'.
      * injection Hy' as <-. apply Hasym; [apply elem_of_cons; by left|done].
      * destruct (less x z).
        -- injection Hy' as <-. by apply Hhead.
        -- injection Hy' as <-. apply Hasym; [apply elem_of_cons; by left|done].
    + apply IH; [|done]. intros y' Hy'. apply Hasym, elem_of_cons. by right.
  - apply no_inversion_cons. split; [|done]. by intros ? [= <-].
Qed.

Lemma sink_elem_of (x y : A) (rl : list A) : y ∈ sink less x rl ↔ y = x ∨ y ∈ rl.
Proof.
  destruct (sink_split x rl) as (rl1 & rl2 & Hrl & Hs & _).
  rewrite Hs, Hrl. rewrite !elem_of_app, elem_of_cons. tauto.
Qed.

Lemma insertion_rounds_no_inversion (rdone todo : list A) :
  (∀ x y, x ∈ rdone ++ todo → y ∈ rdone ++ todo → less x y = true → less y x = false) →
  no_inversion less rdone → no_inversion less (insertion_rounds less rdone todo).
Proof.
  revert rdone. induction todo as [|x todo IH]; intros rdone Hasym Hno; [done|].
  cbn [insertion_rounds]. apply IH.
  - assert (Hin : ∀ c, c ∈ sink less x rdone ++ todo → c ∈ rdone ++ x :: todo).
    { intros c. rewrite !elem_of_app, sink_elem_of, elem_of_cons. tauto. }
    intros a b Ha Hb. apply Hasym; by apply Hin.
  - apply sink_no_inversion; [|done]. intros y Hy.
    apply Hasym; rewrite elem_of_app, ?elem_of_cons; tauto.
Qed.

(** An inversion-free slice read from left to right. *)
Lemma no_inversion_neighbours (rl l1 l2 : list A) (a b : A) :
  no_inversion less rl → rev rl = l1 ++ a :: b :: l2 → less b a = false.
Proof.
  intros Hno Hrev.
  assert (Hrl : rl = rev l2 ++ b :: a :: rev l1).
  { rewrite <- (rev_involutive rl), Hrev, rev_app_distr. cbn [rev].
    by rewrite <- !app_assoc. }
  subst rl. clear Hrev. induction (rev l2) as [|z u IH].
  - by destruct Hno.
  - apply IH. by apply no_inversion_cons in Hno as [_ Hno].
Qed.

Lemma before_in_sublist (a b : A) (l : list A) :
  before_in a b l ↔ [a; b] `sublist_of` l.
Proof.
  unfold before_in. rewrite sublist_cons_l. split.
  - intros (l1 & l2 & l3 & ->). exists l1, (l2 ++ b :: l3). split; [done|].
    apply sublist_inserts_l. constructor. apply sublist_nil_l.
  - intros (k1 & k2 & -> & (k3 & k4 & -> & _)%sublist_cons_l). by exists k1, k3, k4.
Qed.

(** One round keeps [a] before [b] unless [b] is less than [a]. *)
Lemma sink_before (a b x : A) (rdone todo : list A) :
  less b a = false →
  [a; b] `sublist_of` rev rdone ++ x :: todo →
  [a; b] `sublist_of` rev (sink less x rdone) ++ todo.
Proof.
  intros Hba Hsub.
  destruct (sink_split x rdone) as (rl1 & rl2 & -> & -> & Hall).
  rewrite !rev_app_distr in *. cbn [rev] in *.
  rewrite <- ?app_assoc in *. cbn [app] in *.
  assert (Hpassed : ∀ y, [y] `sublist_of` rev rl1 → less x y = true).
  { intros y Hy. apply singleton_sublist_l in Hy.
    rewrite list_elem_of_In, <- in_rev, <- list_elem_of_In in Hy.
    rewrite Forall_forall in Hall. by apply Hall. }
  apply sublist_app_r in Hsub as (k1 & k2 & Hk & Hk1 & Hk2).
  apply sublist_app_r in Hk2 as (k3 & k4 & -> & Hk3 & Hk4).
  apply sublist_cons_r in Hk4.
  destruct k1 as [|a1 [|b1 k1]].
  - (* both after the stem *)
    apply sublist_inserts_l. cbn [app] in Hk.
    destruct k3 as [|a3 [|b3 k3]].
    + cbn [app] in Hk. subst k4.
      destruct Hk4 as [Hk4|(k & [= -> ->] & Hk4)].
      * by apply sublist_cons, sublist_inserts_l.
      * by apply sublist_skip, sublist_inserts_l.
    + injection Hk as <- <-.
      destruct Hk4 as [Hk4|(k & [= -> ->] & Hk4)].
      * apply sublist_cons. by apply (sublist_app [a] _ [b] _).
      * rewrite (Hpassed a) in Hba by done. done.
    + injection Hk as <- <- Hnil. symmetry in Hnil. apply app_eq_nil in Hnil as [-> ->].
      by apply sublist_cons, sublist_inserts_r.
  - (* [a] in the stem *)
    injection Hk as <- Hb. apply (sublist_app [a] _ [b] _); [done|].
    destruct k3 as [|b3 k3].
    + cbn [app] in Hb. subst k4.
      destruct Hk4 as [Hk4|(k & [= -> ->] & Hk4)].
      * by apply sublist_cons, sublist_inserts_l.
      * by apply sublist_skip, sublist_inserts_l.
    + injection Hb as <- Hnil. symmetry in Hnil. apply app_eq_nil in Hnil as [-> ->].
      by apply sublist_cons, sublist_inserts_r.
  - (* both in the stem *)
    injection Hk as <- <- Hnil. symmetry in Hnil. apply app_eq_nil in Hnil as [-> _].
    by apply sublist_inserts_r.
Qed.

Lemma insertion_rounds_before (a b : A) (rdone todo : list A) :
  less b a = false →
  [a; b] `sublist_of` rev rdone ++ todo →
  [a; b] `sublist_of` rev (insertion_rounds less rdone todo).
Proof.
  intros Hba. revert rdone. induction todo as [|x todo IH]; intros rdone Hsub.
  { simpl. by rewrite app_nil_r in Hsub. }
  cbn [insertion_rounds]. by apply IH, sink_before.
Qed.

End insertion.

(** ** WalkSets on up to 20 services *)

(** What [WalkSets] returns when the services are allocated. *)
Lemma WalkSets_returns {W : Type} (σ : services) (r : RootExpr.t)
    (walk : ExpressionSet → W → W) (w : W) :
  services_allocated σ (RootExpr.HTTPServices r) →
  WalkSets σ r walk w
  = Returns
      (RootExpr.set_HTTPServices r
         (GoSort.SliceStable (RootExpr.HTTPServices r) (parent_less σ)),
       walk (flat_map (service_servers σ)
               (GoSort.SliceStable (RootExpr.HTTPServices r) (parent_less σ)))
         (walk (flat_map (service_endpoints σ)
                  (GoSort.SliceStable (RootExpr.HTTPServices r) (parent_less σ)))
            (walk (map ServiceE
                     (GoSort.SliceStable (RootExpr.HTTPServices r) (parent_less σ))) w))).
Proof.
  intros Hok.
  set (sorted := GoSort.SliceStable (RootExpr.HTTPServices r) (parent_less σ)).
  assert (Hperm : sorted ≡ₚ RootExpr.HTTPServices r) by apply SliceStable_Permutation.
  unfold WalkSets. cbn [RootExpr.HTTPServices RootExpr.set_HTTPServices]. fold sorted.
  pose proof (walk_loop σ sorted [] (replicate (length (RootExpr.HTTPServices r)) NilExpr)
                [] []) as Hloop.
  simpl in Hloop. rewrite Hloop.
  - done.
  - by rewrite length_replicate, Hperm.
  - intros p Hp. apply Hok. by rewrite <- Hperm.
Qed.

Lemma SliceStable_rounds {A} (x : list A) (less : A → A → bool) :
  length x ≤ 20 → GoSort.SliceStable x less = rev (insertion_rounds less [] x).
Proof. intros H. by rewrite SliceStable_short, insertionSort_rounds. Qed.

Lemma no_mutual_parents_spec (σ : services) (ps : list loc) (p q : loc) :
  no_mutual_parents σ ps = true → p ∈ ps → q ∈ ps →
  parent_less σ p q = true → parent_less σ q p = false.
Proof.
  unfold no_mutual_parents. rewrite forallb_forall. intros H Hp Hq Hpq.
  apply list_elem_of_In in Hp, Hq. specialize (H p Hp).
  rewrite forallb_forall in H. specialize (H q Hq).
  rewrite Hpq in H. by destruct (parent_less σ q p).
Qed.



(** X10.  Up to 20 allocated services: a service declared before another
    one is still before it in the set of services that [WalkSets] gives to
    the callback, unless the other one is its parent.  So a parent
    declared before its child stays before it. *)
Theorem WalkSets_keeps_order {W : Type} (σ : services) (r : RootExpr.t)
    (walk : ExpressionSet → W → W) (w : W) (a b : loc) :
  services_allocated σ (RootExpr.HTTPServices r) →
  length (RootExpr.HTTPServices r) ≤ 20 →
  before_in a b (RootExpr.HTTPServices r) →
  ¬ child_then_parent σ a b →
  ∃ sorted,
    WalkSets σ r walk w
    = Returns (RootExpr.set_HTTPServices r sorted,
               walk (flat_map (service_servers σ) sorted)
                 (walk (flat_map (service_endpoints σ) sorted)
                    (walk (map ServiceE sorted) w)))
    ∧ before_in a b sorted.
Proof.
  intros Hok Hlen Hbefore Hnot. eexists. split; [by apply WalkSets_returns|].
  rewrite SliceStable_rounds by done.
  apply before_in_sublist, insertion_rounds_before.
  - unfold child_then_parent in Hnot. by destruct (parent_less σ b a).
  - by apply before_in_sublist.
Qed.

Lemma WalkSets_keeps_order_witness :
  ∃ sorted,
    WalkSets family (root_with_services [3; 2; 1]%positive) record_walk []
    = Returns (root_with_services sorted,
               [map ServiceE sorted; flat_map (service_endpoints family) sorted;
                flat_map (service_servers family) sorted])
    ∧ before_in 3%positive 1%positive sorted.
Proof.
  destruct (WalkSets_keeps_order family (root_with_services [3; 2; 1]%positive)
              record_walk [] 3%positive 1%positive)
    as (sorted & H1 & H2).
  - apply family_allocated; intros p Hp.
    cbn [RootExpr.HTTPServices root_with_services] in Hp.
    rewrite !elem_of_cons in Hp; rewrite !elem_of_cons; tauto.
  - simpl. lia.
  - by exists [], [2%positive], [].
  - unfold child_then_parent. vm_compute. discriminate.
  - exists sorted. split; [exact H1|exact H2].
Defined.

(** ** Sorting services without parents *)

Section unordered.

Context {A : Type} (less : A → A → bool).

Lemma bsearch_always (go_right : nat → bool) (i j : nat) :
  (∀ h, go_right h = true) → GoSort.bsearch go_right i j = i `max` j.
Proof.
  intros Hgo. funelim (GoSort.bsearch go_right i j).
  - rewrite Hgo. rewrite H by done.
    pose proof (Nat.div_mod_eq (i + j) 2);
      pose proof (Nat.mod_upper_bound (i + j) 2); lia.
  - lia.
Qed.

Lemma bsearch_never (go_right : nat → bool) (i j : nat) :
  (∀ h, go_right h = false) → GoSort.bsearch go_right i j = i.
Proof.
  intros Hgo. funelim (GoSort.bsearch go_right i j); [|done].
  rewrite Hgo. by apply H0.
Qed.

Lemma insert_down_unordered (data : list A) (a j : nat) :
  (∀ i k, GoSort.Less less data i k = false) → GoSort.insert_down less data a j = data.
Proof. intros Hf. destruct j; [done|]. cbn [GoSort.insert_down]. by rewrite Hf, andb_false_r. Qed.

Lemma insertionSort_unordered (data : list A) (a b : nat) :
  (∀ i k, GoSort.Less less data i k = false) → GoSort.insertionSort less data a b = data.
Proof.
  intros Hf. unfold GoSort.insertionSort.
  induction (seq (a + 1) (b - (a + 1))) as [|i l IH]; [done|].
  cbn [foldl]. by rewrite insert_down_unordered.
Qed.

Lemma symMerge_unordered (data : list A) (a m b : nat) :
  (∀ i k, GoSort.Less less data i k = false) → GoSort.symMerge less data a m b = data.
Proof.
  funelim (GoSort.symMerge less data a m b); intros Hf.
  - rewrite bsearch_never by done. by replace (m - 1 - a) with 0 by lia.
  - rewrite bsearch_always by (intros; by rewrite Hf).
    by replace (m - a `max` m) with 0 by lia.
  - clear Heqcall Heq Heq0. revert H H0.
    rewrite bsearch_always by (intros; by rewrite Hf).
    match goal with |- context [if ?d then GoSort.rotate _ _ _ _ else _] =>
      destruct d as [Hrot|_] end.
    { exfalso. destruct (decide ((a + b) / 2 < m)); lia. }
    intros H H0.
    match goal with |- context [match ?d with left _ => GoSort.symMerge less data _ _ _ | right _ => _ end] =>
      destruct d as [Hc1|_] end.
    + rewrite (H Hc1 Hf).
      match goal with |- match ?d with left _ => _ | right _ => _ end = _ =>
        destruct d as [Hc2|_] end; [|done].
      specialize (H0 Hc2). rewrite (H Hc1 Hf) in H0. by apply H0.
    + match goal with |- match ?d with left _ => _ | right _ => _ end = _ =>
        destruct d as [Hc2|_] end; [|done].
      by apply (H0 Hc2).
Qed.

Lemma insertion_blocks_unordered (data : list A) (a b n : nat) :
  (∀ i k, GoSort.Less less data i k = false) →
  (GoSort.insertion_blocks less data a b n).1 = data.
Proof.
  funelim (GoSort.insertion_blocks less data a b n); intros Hf; [|done].
  rewrite insertionSort_unordered in H |- * by done. by apply H.
Qed.

Lemma merge_blocks_unordered (data : list A) (a b n blockSize : nat) :
  (∀ i k, GoSort.Less less data i k = false) →
  (GoSort.merge_blocks less data a b n blockSize).1 = data.
Proof.
  funelim (GoSort.merge_blocks less data a b n blockSize); intros Hf; [done| |done].
  rewrite symMerge_unordered in H |- * by done. by apply H.
Qed.

Lemma merge_passes_unordered (data : list A) (n blockSize : nat) :
  (∀ i k, GoSort.Less less data i k = false) →
  GoSort.merge_passes less data n blockSize = data.
Proof.
  funelim (GoSort.merge_passes less data n blockSize); intros Hf; [done| |done].
  revert H.
  match goal with |- context [GoSort.merge_blocks less data 0 ?b n ?bs] =>
    pose proof (merge_blocks_unordered data 0 b n bs Hf) as Hb;
    destruct (GoSort.merge_blocks less data 0 b n bs) as [data1 a'] end.
  simpl in Hb. subst data1. intros H. specialize (H data a'). revert H.
  match goal with |- context [match ?d with left _ => _ | right _ => _ end] =>
    destruct d end; intros H.
  - rewrite symMerge_unordered in H |- * by done. by apply H.
  - by apply H.
Qed.

(** A slice on which the comparator never holds is left as it is,
    whatever its length. *)
Lemma stable_unordered (data : list A) :
  (∀ x y, x ∈ data → y ∈ data → less x y = false) → GoSort.stable less data = data.
Proof.
  intros Hless.
  assert (Hf : ∀ i k, GoSort.Less less data i k = false).
  { intros i k. unfold GoSort.Less.
    destruct (data !! i) as [x|] eqn:Hi; [|done].
    destruct (data !! k) as [y|] eqn:Hk; [|done].
    apply Hless; by eapply list_elem_of_lookup_2. }
  unfold GoSort.stable.
  pose proof (insertion_blocks_unordered data 0 20 (length data) Hf) as Hb.
  destruct (GoSort.insertion_blocks less data 0 20 (length data)) as [data1 a].
  simpl in Hb. subst data1.
  by rewrite insertionSort_unordered, merge_passes_unordered.
Qed.

End unordered.

Lemma no_parents_spec (σ : services) (ps : list loc) (p q : loc) :
  no_parents σ ps = true → p ∈ ps → q ∈ ps → parent_less σ p q = false.
Proof.
  unfold no_parents. rewrite forallb_forall. intros H Hp Hq.
  apply list_elem_of_In in Hp, Hq. specialize (H p Hp).
  rewrite forallb_forall in H. specialize (H q Hq).
  by destruct (parent_less σ p q).
Qed.

(** X11.  However many services there are: when they are allocated and
    none of them names one of them as parent, [WalkSets] returns, leaves
    the root as it is and gives the callback the services, then their
    endpoints, then their servers, all in declaration order. *)
Theorem WalkSets_without_parents {W : Type} (σ : services) (r : RootExpr.t)
    (walk : ExpressionSet → W → W) (w : W) :
  services_allocated σ (RootExpr.HTTPServices r) →
  no_parents σ (RootExpr.HTTPServices r) = true →
  WalkSets σ r walk w
  = Returns (r,
             walk (flat_map (service_servers σ) (RootExpr.HTTPServices r))
               (walk (flat_map (service_endpoints σ) (RootExpr.HTTPServices r))
                  (walk (map ServiceE (RootExpr.HTTPServices r)) w))).
Proof.
  intros Hok Hno. rewrite WalkSets_returns by done.
  unfold GoSort.SliceStable. rewrite stable_unordered.
  - by destruct r.
  - intros p q Hp Hq. by apply (no_parents_spec σ (RootExpr.HTTPServices r)).
Qed.

Lemma WalkSets_without_parents_witness :
  WalkSets family (root_with_services [3; 2]%positive) record_walk []
  = Returns (root_with_services [3; 2]%positive,
             [map ServiceE [3; 2]%positive;
              flat_map (service_endpoints family) [3; 2]%positive;
              flat_map (service_servers family) [3; 2]%positive]).
Proof.
  apply (WalkSets_without_parents family (root_with_services [3; 2]%positive) record_walk []).
  - apply family_allocated; intros p Hp.
    cbn [RootExpr.HTTPServices root_with_services] in Hp.
    rewrite !elem_of_cons in Hp; rewrite !elem_of_cons; tauto.
  - reflexivity.
Defined.

(** ** The name of a file server *)

(** X12.  When [Finalize] returns, the service of the file server is
    allocated, and [EvalName] gives the finalized file server the name it
    gave it before: the name of the service, a space, [file server] and
    the file path. *)
Theorem EvalName_after_Finalize (service_EvalName : ServiceExpr.t → string)
    (Root : RootExpr.t) (σ : services) (f f' : FileServerExpr.t) :
  Finalize Root σ f = Returns f' →
  ∃ svc,
    deref σ (FileServerExpr.Service f) = Returns svc
    ∧ FileServer_EvalName service_EvalName σ f'
      = Returns (String.append (String.append (service_EvalName svc) " ")
                   (String.append "file server " (FileServerExpr.FilePath f)))
    ∧ FileServer_EvalName service_EvalName σ f
      = FileServer_EvalName service_EvalName σ f'.
Proof.
  unfold Finalize, FileServer_EvalName. intros H.
  destruct (deref σ (FileServerExpr.Service f)) as [svc|] eqn:Hd; [|done].
  cbn [obind] in H. injection H as <-. cbn [FileServerExpr.Service FileServerExpr.FilePath].
  exists svc. rewrite Hd. cbn [obind].
  destruct (FileServerExpr.Service f); [done|]. by cbn [deref] in Hd.
Qed.

Lemma EvalName_after_Finalize_witness :
  Finalize (RootExpr.mk None "/api" [] [] [1%positive] None None)
    {[ 1%positive := ServiceExpr.mk "files" "v1" "" [] [] ]}
    (FileServerExpr.mk (Some 1%positive) "" "public" "assets")
  = Returns (FileServerExpr.mk (Some 1%positive) "" "public" "/api/v1/assets")
  ∧ FileServer_EvalName (λ svc, String.append "service " (ServiceExpr.Name svc))
      {[ 1%positive := ServiceExpr.mk "files" "v1" "" [] [] ]}
      (FileServerExpr.mk (Some 1%positive) "" "public" "/api/v1/assets")
    = Returns "service files file server public".
Proof.
  assert (Hf : Finalize (RootExpr.mk None "/api" [] [] [1%positive] None None)
                 {[ 1%positive := ServiceExpr.mk "files" "v1" "" [] [] ]}
                 (FileServerExpr.mk (Some 1%positive) "" "public" "assets")
               = Returns (FileServerExpr.mk (Some 1%positive) "" "public" "/api/v1/assets"))
    by reflexivity.
  split; [exact Hf|].
  destruct (EvalName_after_Finalize
              (λ svc, String.append "service " (ServiceExpr.Name svc)) _ _ _ _ Hf)
    as (svc & Hd & Hn & _).
  rewrite Hn. injection Hd as <-. reflexivity.
Defined.

(** X13.  [Finalize] returns exactly when the file server has a service
    that is allocated; [EvalName] returns also when the file server has no
    service, and panics only on a dangling one. *)
Theorem Finalize_EvalName_return (service_EvalName : ServiceExpr.t → string)
    (Root : RootExpr.t) (σ : services) (f : FileServerExpr.t) :
  ((∃ f', Finalize Root σ f = Returns f')
   ↔ ∃ p, FileServerExpr.Service f = Some p ∧ is_Some (σ !! p))
  ∧ ((∃ name, FileServer_EvalName service_EvalName σ f = Returns name)
     ↔ ∀ p, FileServerExpr.Service f = Some p → is_Some (σ !! p))
  ∧ (FileServerExpr.Service f = None →
     FileServer_EvalName service_EvalName σ f
     = Returns (String.append "file server " (FileServerExpr.FilePath f))).
Proof.
  unfold Finalize, FileServer_EvalName, deref.
  destruct (FileServerExpr.Service f) as [p|]; [|cbn [obind]].
  - destruct (σ !! p) as [svc|] eqn:Hp; cbn [obind].
    + assert (Hs : is_Some (σ !! p)) by (by exists svc).
      split; [|split]; [| |done].
      * split; [intros _; by exists p|eauto].
      * split; [by intros _ q [= <-]|eauto].
    + assert (Hs : ¬ is_Some (σ !! p)) by (intros [? ?]; congruence).
      split; [|split]; [| |done].
      * split; [by intros [? ?]|]. by intros (q & [= <-] & ?).
      * split; [by intros [? ?]|]. intros H. by destruct Hs, (H p).
  - split; [|split]; [| |done].
    + split; [by intros [? ?]|by intros (? & ? & _)].
    + split; [done|eauto].
Qed.

(** ** Looking a service up after WalkSets *)

Lemma service_names_elem (σ : services) (ps : list loc) (p : loc) (svc : ServiceExpr.t) :
  p ∈ ps → σ !! p = Some svc → ServiceExpr.Name svc ∈ service_names σ ps.
Proof.
  intros Hp Hsvc. unfold service_names. apply list_elem_of_omap.
  exists p. split; [done|]. by rewrite Hsvc.
Qed.

(** With distinct names, a name is the name of one service only. *)
Lemma service_names_unique (σ : services) (ps : list loc) (p q : loc)
    (svc_p svc_q : ServiceExpr.t) :
  NoDup (service_names σ ps) → p ∈ ps → q ∈ ps →
  σ !! p = Some svc_p → σ !! q = Some svc_q →
  ServiceExpr.Name svc_p = ServiceExpr.Name svc_q → p = q.
Proof.
  induction ps as [|x ps IH]; intros Hnd Hp Hq Hsp Hsq Hname.
  { by apply elem_of_nil in Hp. }
  apply elem_of_cons in Hp as [->|Hp], Hq as [->|Hq]; [done| | |].
  - rewrite (service_names_cons _ _ _ _ Hsp) in Hnd. apply NoDup_cons in Hnd as [Hnot _].
    destruct Hnot. rewrite Hname. by apply (service_names_elem σ ps q).
  - rewrite (service_names_cons _ _ _ _ Hsq) in Hnd. apply NoDup_cons in Hnd as [Hnot _].
    destruct Hnot. rewrite <- Hname. by apply (service_names_elem σ ps p).
  - apply IH; try done. change (x :: ps) with ([x] ++ ps) in Hnd.
    rewrite service_names_app in Hnd. by apply NoDup_app in Hnd as (_ & _ & ?).
Qed.

(** X14.  [WalkSets] reorders the services of the root, which [Service]
    searches from the front.  On allocated services a name is found after
    [WalkSets] exactly when it was found before, and when the names of the
    services are distinct [Service] returns the same service as before. *)
Theorem Service_after_WalkSets {W : Type} (σ : services) (r r' : RootExpr.t)
    (walk : ExpressionSet → W → W) (w w' : W) (name : string) :
  services_allocated σ (RootExpr.HTTPServices r) →
  WalkSets σ r walk w = Returns (r', w') →
  ∃ found found',
    Service σ r name = Returns found
    ∧ Service σ r' name = Returns found'
    ∧ (found = None ↔ found' = None)
    ∧ (NoDup (service_names σ (RootExpr.HTTPServices r)) → found' = found).
Proof.
  intros Hall Hwalk. rewrite WalkSets_returns in Hwalk by done.
  injection Hwalk as <- _.
  set (sorted := GoSort.SliceStable (RootExpr.HTTPServices r) (parent_less σ)).
  assert (Hperm : sorted ≡ₚ RootExpr.HTTPServices r) by apply SliceStable_Permutation.
  assert (Hall' : services_allocated σ sorted).
  { intros p Hp. apply Hall. by rewrite <- Hperm. }
  assert (Hnames : service_names σ sorted ≡ₚ service_names σ (RootExpr.HTTPServices r)).
  { unfold service_names. by rewrite Hperm. }
  unfold Service. cbn [RootExpr.HTTPServices RootExpr.set_HTTPServices].
  destruct (Service_loop_spec σ (RootExpr.HTTPServices r) name Hall)
    as [[-> Hnot]|(l1 & p & l2 & svc & Hps & Hp & Hn & _ & ->)];
    destruct (Service_loop_spec σ sorted name Hall')
    as [[-> Hnot']|(l1' & p' & l2' & svc' & Hps' & Hp' & Hn' & _ & ->)].
  - by exists None, None.
  - destruct Hnot. rewrite <- Hnames, <- Hn'. apply (service_names_elem σ sorted p'); [|done].
    rewrite Hps', elem_of_app, elem_of_cons. tauto.
  - destruct Hnot'. rewrite Hnames, <- Hn.
    apply (service_names_elem σ (RootExpr.HTTPServices r) p); [|done].
    rewrite Hps, elem_of_app, elem_of_cons. tauto.
  - exists (Some p), (Some p'). split; [done|]. split; [done|]. split; [done|].
    intros Hnd. f_equal.
    apply (service_names_unique σ (RootExpr.HTTPServices r) p' p svc' svc); try done.
    + rewrite <- Hperm, Hps', elem_of_app, elem_of_cons. tauto.
    + rewrite Hps, elem_of_app, elem_of_cons. tauto.
    + congruence.
Qed.

Lemma Service_after_WalkSets_witness :
  ∃ found found',
    Service family (root_with_services [1; 3]%positive) "parent" = Returns found
    ∧ Service family (root_with_services [3; 1]%positive) "parent" = Returns found'
    ∧ (found = None ↔ found' = None)
    ∧ (NoDup (service_names family [1; 3]%positive) → found' = found).
Proof.
  apply (Service_after_WalkSets family (root_with_services [1; 3]%positive)
           (root_with_services [3; 1]%positive) record_walk []
           [map ServiceE [3; 1]%positive;
            flat_map (service_endpoints family) [3; 1]%positive;
            flat_map (service_servers family) [3; 1]%positive] "parent").
  - apply family_allocated; intros p Hp.
    cbn [RootExpr.HTTPServices root_with_services] in Hp.
    rewrite !elem_of_cons in Hp; rewrite !elem_of_cons; tauto.
  - vm_compute. reflexivity.
Defined.

(** * The three sets of WalkSets *)

(** The comparator of [WalkSets] holds of [p] and [c] exactly when the
    service at [c] names the service at [p] as its parent. *)
Lemma names_parent_less (σ : services) (c p : loc) :
  names_parent σ c p ↔ parent_less σ p c = true.
Proof.
  unfold names_parent, parent_less. split.
  - intros (child & parent & -> & -> & Hname). by apply bool_decide_eq_true.
  - destruct (σ !! p) as [parent|]; [|done]. destruct (σ !! c) as [child|]; [|done].
    intros Hname%bool_decide_eq_true. by exists child, parent.
Qed.

Lemma not_names_parent_less (σ : services) (c p : loc) :
  ¬ names_parent σ c p ↔ parent_less σ p c = false.
Proof. rewrite names_parent_less. by destruct (parent_less σ p c). Qed.

Lemma no_mutual_parents_names (σ : services) (ps : list loc) :
  no_mutual_parents σ ps = true →
  ∀ c p, c ∈ ps → p ∈ ps → names_parent σ c p → ¬ names_parent σ p c.
Proof.
  intros Hno c p Hc Hp Hcp. apply not_names_parent_less.
  apply (no_mutual_parents_spec σ ps p c Hno Hp Hc). by apply names_parent_less.
Qed.

(** C4.  When every service pointer of the root can be dereferenced,
    [WalkSets] returns, having called the callback three times: on the
    services in sorted order, then on the endpoints of the services in
    that order, each service's in declaration order, then on the file
    servers likewise.  The root keeps the sorted slice.  The sorted order
    is a rearrangement of the declared one, and it is the declared one
    when no service names a service of the root as its parent.  With up to
    20 services, a service declared before another one stays before it
    unless the other one is its parent; and when no two services name each
    other as parent, no service is followed at once by its parent. *)
Theorem WalkSets_three_sets {W : Type} (σ : services) (r : RootExpr.t)
    (walk : ExpressionSet → W → W) (w : W) :
  (∀ p, p ∈ RootExpr.HTTPServices r → is_Some (σ !! p)) →
  let sorted := GoSort.SliceStable (RootExpr.HTTPServices r) (parent_less σ) in
  WalkSets σ r walk w
  = Returns (RootExpr.set_HTTPServices r sorted,
             walk (flat_map (service_servers σ) sorted)
               (walk (flat_map (service_endpoints σ) sorted)
                  (walk (map ServiceE sorted) w)))
  ∧ RootExpr.HTTPServices (RootExpr.set_HTTPServices r sorted) = sorted
  ∧ sorted ≡ₚ RootExpr.HTTPServices r
  ∧ ((∀ c p, c ∈ RootExpr.HTTPServices r → p ∈ RootExpr.HTTPServices r →
             ¬ names_parent σ c p) →
     sorted = RootExpr.HTTPServices r)
  ∧ (length (RootExpr.HTTPServices r) ≤ 20 →
     (∀ a b, before_in a b (RootExpr.HTTPServices r) → ¬ names_parent σ a b →
             before_in a b sorted)
     ∧ ((∀ c p, c ∈ RootExpr.HTTPServices r → p ∈ RootExpr.HTTPServices r →
                names_parent σ c p → ¬ names_parent σ p c) →
        ∀ l1 c p l2, sorted = l1 ++ c :: p :: l2 → ¬ names_parent σ c p)).
Proof.
  intros Hok sorted.
  split; [by apply WalkSets_returns|]. split; [done|].
  split; [apply SliceStable_Permutation|]. split.
  - intros Hno. apply stable_unordered. intros p c Hp Hc.
    apply not_names_parent_less. by apply Hno.
  - intros Hlen. subst sorted. rewrite SliceStable_rounds by done. split.
    + intros a b Hbefore Hnot.
      apply before_in_sublist, insertion_rounds_before.
      * by apply not_names_parent_less.
      * by apply before_in_sublist.
    + intros Hasym l1 c p l2 Hsorted. apply not_names_parent_less.
      assert (Hno : no_inversion (parent_less σ)
                      (insertion_rounds (parent_less σ) [] (RootExpr.HTTPServices r))).
      { apply insertion_rounds_no_inversion; [|done].
        intros x y Hx Hy Hxy. cbn [app] in Hx, Hy.
        apply not_names_parent_less, Hasym; [done..|]. by apply names_parent_less. }
      apply (no_inversion_neighbours (parent_less σ) _ _ _ _ _ Hno Hsorted).
Qed.

Lemma WalkSets_three_sets_witness :
  WalkSets shop (root_with_services [1; 2]%positive) record_walk []
  = Returns
      (root_with_services [2; 1]%positive,
       [ [ServiceE 2%positive; ServiceE 1%positive];
         [EndpointE (Build_EndpointExpr "create");
          EndpointE (Build_EndpointExpr "list");
          EndpointE (Build_EndpointExpr "show")];
         [FileServerE (FileServerExpr.mk (Some 2%positive) "" "public/logo.png" "/logo.png");
          FileServerE (FileServerExpr.mk (Some 2%positive) "" "public/docs" "/docs/{*path}");
          FileServerE (FileServerExpr.mk (Some 1%positive) "" "public/orders" "/static/{*path}")] ])
  ∧ WalkSets shop (root_with_services [2; 1]%positive) record_walk []
    = Returns
        (root_with_services [2; 1]%positive,
         [ [ServiceE 2%positive; ServiceE 1%positive];
           [EndpointE (Build_EndpointExpr "create");
            EndpointE (Build_EndpointExpr "list");
            EndpointE (Build_EndpointExpr "show")];
           [FileServerE (FileServerExpr.mk (Some 2%positive) "" "public/logo.png" "/logo.png");
            FileServerE (FileServerExpr.mk (Some 2%positive) "" "public/docs" "/docs/{*path}");
            FileServerE (FileServerExpr.mk (Some 1%positive) "" "public/orders" "/static/{*path}")] ])
  ∧ before_in 2%positive 1%positive
      (GoSort.SliceStable [2; 1]%positive (parent_less shop))
  ∧ ¬ names_parent shop 2%positive 1%positive.
Proof.
  assert (Hshop : ∀ ps : list loc, ps ⊆ [1; 2]%positive →
                  ∀ p, p ∈ ps → is_Some (shop !! p)).
  { intros ps Hsub p Hp. apply Hsub in Hp.
    repeat (apply elem_of_cons in Hp as [->|Hp]; [eexists; reflexivity|]).
    by apply elem_of_nil in Hp. }
  assert (Hnot : ¬ names_parent shop 2%positive 1%positive).
  { intros (child & parent & [= <-] & [= <-] & Hname). discriminate Hname. }
  destruct (WalkSets_three_sets shop (root_with_services [1; 2]%positive) record_walk [])
    as (H12 & _ & _ & _ & Hshort).
  { by apply Hshop. }
  destruct (WalkSets_three_sets shop (root_with_services [2; 1]%positive) record_walk [])
    as (H21 & _ & _ & _ & Hshort').
  { apply Hshop. intros p Hp. cbn [RootExpr.HTTPServices root_with_services] in Hp.
    rewrite !elem_of_cons in Hp. rewrite !elem_of_cons. tauto. }
  split; [rewrite H12; vm_compute; reflexivity|].
  split; [rewrite H21; vm_compute; reflexivity|].
  split; [|exact Hnot].
  destruct Hshort' as [Hkeep _]; [simpl; lia|].
  apply (Hkeep 2%positive 1%positive); [|exact Hnot].
  by exists [], [], [].
Defined.
